(** * remx_yolo: the batch augmentor of [remx/pre-processing-01.ipynb]

    A shallow embedding of the notebook's [augment(folder_path, quantity)]
    and of the library calls it is made of, followed by the properties the
    specification states about it.

    Paths are lists of name components ([os.path.join p d] is [p ++ [d]];
    a directory entry's name holds no separator, so the source's
    [output_dir + "/" + name] is one more component).  The filesystem is a
    finite map from paths to nodes.  The process-wide random generator is a
    stream of raw draws with a cursor. *)

From Stdlib Require Import ZArith Lia Ascii String.
From stdpp Require Import gmap strings list fin_maps.

Open Scope string_scope.
Open Scope list_scope.

(** ** Python values used by the code *)

Inductive exception :=
  | FileNotFoundError
  | NotADirectoryError
  | FileExistsError
  | ValueError
  | IndexError
  | TransformError
  | Cv2Error.

Module PyStr.

(** [s.split(sep)] for a one-character separator: the pieces between the
    separators, always at least one piece. *)
Fixpoint split (sep : ascii) (s : string) : list string :=
  match s with
  | EmptyString => [EmptyString]
  | String c s' =>
      if Ascii.eqb c sep then EmptyString :: split sep s'
      else match split sep s' with
           | piece :: pieces => String c piece :: pieces
           | [] => [String c EmptyString]
           end
  end.

(** [s.endswith(suffix)]: some tail of [s] is [suffix]. *)
Fixpoint endswith (s suffix : string) : bool :=
  if String.eqb s suffix then true
  else match s with
       | EmptyString => false
       | String _ s' => endswith s' suffix
       end.

(** [l[i]], raising [IndexError] out of range. *)
Definition index {A} (l : list A) (i : nat) : exception + A :=
  match l !! i with
  | Some x => inr x
  | None => inl IndexError
  end.

(** The text before the first [sep] (the whole string when there is none). *)
Fixpoint text_before_first (sep : ascii) (s : string) : string :=
  match s with
  | EmptyString => EmptyString
  | String c s' =>
      if Ascii.eqb c sep then EmptyString
      else String c (text_before_first sep s')
  end.

(** The text after the first [sep] (empty when there is none). *)
Fixpoint text_after_first (sep : ascii) (s : string) : string :=
  match s with
  | EmptyString => EmptyString
  | String c s' =>
      if Ascii.eqb c sep then s' else text_after_first sep s'
  end.

(** [sep in s] *)
Fixpoint contains (sep : ascii) (s : string) : bool :=
  match s with
  | EmptyString => false
  | String c s' => if Ascii.eqb c sep then true else contains sep s'
  end.

End PyStr.

Definition dot : ascii := "."%char.

(** [filename.endswith(".jpg") or filename.endswith(".png")] *)
Definition eligible (filename : string) : bool :=
  PyStr.endswith filename ".jpg" || PyStr.endswith filename ".png".

(** The images among some names: those the filter of the loop lets through. *)
Definition images (names : list string) : list string :=
  filter (fun f => eligible f = true) names.

(** [filename.split(".")[0] + "-aug." + filename.split(".")[1]] *)
Definition output_filename (filename : string) : exception + string :=
  match PyStr.index (PyStr.split dot filename) 0 with
  | inl e => inl e
  | inr stem =>
      match PyStr.index (PyStr.split dot filename) 1 with
      | inl e => inl e
      | inr ext => inr (stem +:+ "-aug." +:+ ext)
      end
  end.

(** The output name as the specification words it: the text before the first
    dot, then [-aug.], then the text after the first dot. *)
Definition spec_output_filename (filename : string) : string :=
  PyStr.text_before_first dot filename +:+ "-aug." +:+
  PyStr.text_after_first dot filename.

Example output_filename_cat : output_filename "cat.jpg" = inr "cat-aug.jpg".
Proof. reflexivity. Qed.

Example output_filename_nodot : output_filename "README" = inl IndexError.
Proof. reflexivity. Qed.

(** ** The world the code runs in *)

Abbreviation path := (list string).

(** The library calls that touch the outside, in the order they are made. *)
Inductive event :=
  | Scandir (p : path)    (* os.walk reads the directory p *)
  | Listdir (p : path)    (* os.listdir(p) *)
  | Imread (p : path)     (* cv2.imread(p) *)
  | Makedirs (p : path)   (* os.makedirs(p) *)
  | Transform             (* augmentation_transforms()(image=img) *)
  | Imwrite (p : path).   (* cv2.imwrite(p, img) *)

(** The external collaborators: the image codec behind cv2, the augmentation
    pipeline of utils.images, and the stream the process-wide random
    generator draws from.  The pipeline may draw from that generator; it is
    handed the cursor and returns the new one. *)
Class Collaborators := {
  image : Type;
  content : Type;
  cv2_imdecode : content -> option image;
  cv2_imencode : path -> image -> option content;
  augmentation_transforms : nat -> option image -> (exception + image) * nat;
  random_draws : nat -> nat
}.

Inductive node `{Collaborators} :=
  | File (data : content)
  | Dir.

Record world `{Collaborators} := World {
  fs : gmap path node;
  trace : list event;
  cursor : nat
}.

Inductive outcome (A : Type) :=
  | Return (a : A)
  | Raise (e : exception)
  | OutOfFuel.
Arguments Return {A} a.
Arguments Raise {A} e.
Arguments OutOfFuel {A}.

Section Model.
Context `{Collaborators}.

(** A computation: it ends with a value, an uncaught exception, or runs out
    of the fuel that bounds the directory walk. *)
Definition M (A : Type) : Type := world -> outcome A * world.

Definition ret {A} (a : A) : M A := fun w => (Return a, w).
Definition raise {A} (e : exception) : M A := fun w => (Raise e, w).
Definition bind {A B} (m : M A) (k : A -> M B) : M B :=
  fun w =>
    match m w with
    | (Return a, w') => k a w'
    | (Raise e, w') => (Raise e, w')
    | (OutOfFuel, w') => (OutOfFuel, w')
    end.

(** [try: m except FileExistsError: pass] *)
Definition pass_FileExistsError (m : M unit) : M unit :=
  fun w =>
    match m w with
    | (Raise FileExistsError, w') => (Return tt, w')
    | r => r
    end.

Definition lift {A} (r : exception + A) : M A :=
  match r with
  | inl e => raise e
  | inr a => ret a
  end.

Definition get_fs : M (gmap path node) := fun w => (Return (fs w), w).
Definition put_fs (f : gmap path node) : M unit :=
  fun w => (Return tt, World _ f (trace w) (cursor w)).
Definition emit (e : event) : M unit :=
  fun w => (Return tt, World _ (fs w) (trace w ++ [e]) (cursor w)).

End Model.

Notation "'let*' x ':=' m 'in' k" := (bind m (fun x => k))
  (at level 10, x name, m at level 100, k at level 200).
Notation "m ';;' k" := (bind m (fun _ => k))
  (at level 100, k at level 200, right associativity).

(** ** The library calls *)

Module Path.

(** [os.path.join(p, name)] for a name without separator. *)
Definition join (p : path) (name : string) : path := p ++ [name].

(** [os.path.split]: the directory a path lies in and its last component. *)
Definition parent (p : path) : path := removelast p.
Definition basename (p : path) : option string := last p.

(** The name of [k] inside [p] when [k] is an immediate entry of [p]. *)
Fixpoint child_of (p k : path) : option string :=
  match p, k with
  | [], [name] => Some name
  | a :: p', b :: k' => if String.eqb a b then child_of p' k' else None
  | _, _ => None
  end.

End Path.

Section Library.
Context `{Collaborators}.

(** The names of the entries of directory [p], in the order the map
    enumerates them (os.listdir promises no order). *)
Definition entries (f : gmap path node) (p : path) : list string :=
  omap (fun kv => Path.child_of p kv.1) (map_to_list f).

Definition is_dir (f : gmap path node) (p : path) : bool :=
  match f !! p with
  | Some Dir => true
  | _ => false
  end.

(** [os.listdir(p)] *)
Definition os_listdir (p : path) : M (list string) :=
  emit (Listdir p);;
  let* f := get_fs in
  match f !! p with
  | Some Dir => ret (entries f p)
  | Some (File _) => raise NotADirectoryError
  | None => raise FileNotFoundError
  end.

(** [os.path.exists(p)] *)
Definition os_path_exists (p : path) : M bool :=
  let* f := get_fs in
  ret (bool_decide (is_Some (f !! p))).

(** [os.mkdir(p)], on a filesystem that is a tree of names: it fails when
    the name is taken, or when the parent is missing or is no directory.
    Permissions, quotas and other processes are outside the model: a
    directory that may be made here is made. *)
Definition os_mkdir (p : path) : M unit :=
  let* f := get_fs in
  match f !! p with
  | Some _ => raise FileExistsError
  | None =>
      match p with
      | [] => raise FileNotFoundError
      | _ =>
          match f !! Path.parent p with
          | Some Dir => put_fs (<[p := Dir]> f)
          | Some (File _) => raise NotADirectoryError
          | None => raise FileNotFoundError
          end
      end
  end.

(** [os.makedirs(name)] on the reversed path: create the missing parents,
    then the directory itself. *)
Fixpoint makedirs_rev (rname : path) : M unit :=
  match rname with
  | [] => os_mkdir []
  | tail :: rhead =>
      let head := rev rhead in
      (let* head_exists := os_path_exists head in
       match rhead with
       | [] => ret tt
       | _ => if head_exists then ret tt
              else pass_FileExistsError (makedirs_rev rhead)
       end);;
      os_mkdir (rev rname)
  end.

Definition os_makedirs (name : path) : M unit :=
  emit (Makedirs name);;
  makedirs_rev (rev name).

(** [cv2.imread(p)]: the decoded image, or None when the file cannot be
    read or decoded; it raises nothing. *)
Definition cv2_imread (p : path) : M (option image) :=
  emit (Imread p);;
  let* f := get_fs in
  match f !! p with
  | Some (File data) => ret (cv2_imdecode data)
  | _ => ret None
  end.

(** [cv2.imwrite(p, img)]: raises when no encoder takes the image for
    that name; returns False, writing nothing, when the file cannot be
    opened for writing; else replaces the file and returns True. *)
Definition cv2_imwrite (p : path) (img : image) : M bool :=
  emit (Imwrite p);;
  match cv2_imencode p img with
  | None => raise Cv2Error
  | Some data =>
      let* f := get_fs in
      if is_dir f (Path.parent p) && negb (is_dir f p)
      then put_fs (<[p := File data]> f);; ret true
      else ret false
  end.

(** [augmentation_transforms()(image=img)["image"]] *)
Definition transform (img : option image) : M image :=
  emit Transform;;
  fun w =>
    let '(r, c) := augmentation_transforms (cursor w) img in
    let w' := World _ (fs w) (trace w) c in
    match r with
    | inl e => (Raise e, w')
    | inr out => (Return out, w')
    end.

(** The first [size] entries of a random permutation of [a], each draw
    picking one of the entries still left. *)
Fixpoint sample_without_replacement {A} (draws : nat -> nat) (cur : nat)
    (a : list A) (size : nat) : list A :=
  match size with
  | 0 => []
  | S size' =>
      match a with
      | [] => []
      | x :: _ =>
          let i := draws cur mod length a in
          nth i a x :: sample_without_replacement draws (S cur) (delete i a) size'
      end
  end.

(** [np.random.choice(a, size, replace=False)] *)
Definition np_random_choice {A} (a : list A) (size : Z) : M (list A) :=
  if (size <? 0)%Z then raise ValueError
  else if (Z.of_nat (length a) <? size)%Z then raise ValueError
  else fun w =>
    (Return (sample_without_replacement random_draws (cursor w) a (Z.to_nat size)),
     World _ (fs w) (trace w) (cursor w + Z.to_nat size)).

(** [for x in l: body(x)] *)
Fixpoint for_ {A} (l : list A) (body : A -> M unit) : M unit :=
  match l with
  | [] => ret tt
  | x :: l' => body x;; for_ l' body
  end.

(** What os.walk finds in [top]: the names of its subdirectories and of its
    other entries; None when [top] cannot be scanned. *)
Definition scandir (f : gmap path node) (top : path)
    : option (list string * list string) :=
  match f !! top with
  | Some Dir =>
      let names := entries f top in
      Some (filter (fun n => is_dir f (Path.join top n) = true) names,
            filter (fun n => is_dir f (Path.join top n) = false) names)
  | _ => None
  end.

(** [for dirpath, dirnames, filenames in os.walk(top): body], top-down:
    a directory is scanned when the walk reaches it, after the body has run
    for the directories before it.  A directory that cannot be scanned is
    skipped silently (onerror is None). *)
Fixpoint os_walk (fuel : nat)
    (body : path -> list string -> list string -> M unit) (top : path)
    : M unit :=
  match fuel with
  | 0 => fun w => (OutOfFuel, w)
  | S fuel' =>
      emit (Scandir top);;
      let* f := get_fs in
      match scandir f top with
      | None => ret tt
      | Some (dirs, nondirs) =>
          body top dirs nondirs;;
          for_ dirs (fun dirname => os_walk fuel' body (Path.join top dirname))
      end
  end.

End Library.

(** ** The notebook's function *)

Section Augment.
Context `{Collaborators}.

(** The body of the innermost loop: one sampled entry of a category. *)
Definition augment_file (nested_folder_path : path) (filename : string) : M unit :=
  if eligible filename then
    let image_path := Path.join nested_folder_path filename in
    let* img := cv2_imread image_path in
    let output_dir := Path.join nested_folder_path "augmented" in
    (let* there := os_path_exists output_dir in
     if negb there then os_makedirs output_dir else ret tt);;
    let* name := lift (output_filename filename) in
    let output_path := Path.join output_dir name in
    let* augmented_img := transform img in
    let* _ := cv2_imwrite output_path augmented_img in
    ret tt
  else ret tt.

(** The body of the loop over [dirnames]. *)
Definition augment_dirname (folder_path : path) (quantity : Z)
    (dirname : string) : M unit :=
  if negb (String.eqb dirname "augmented") then
    let nested_folder_path := Path.join folder_path dirname in
    let* files := os_listdir nested_folder_path in
    let* sampled :=
      np_random_choice files (Z.min quantity (Z.of_nat (length files))) in
    for_ sampled (augment_file nested_folder_path)
  else ret tt.

(** [augment(folder_path, quantity)] *)
Definition augment (fuel : nat) (folder_path : path) (quantity : Z) : M unit :=
  os_walk fuel
    (fun dirpath dirnames filenames =>
       for_ dirnames (augment_dirname folder_path quantity))
    folder_path.

End Augment.

(** ** The notebook's last cell *)

Module Notebook.

Definition folder_path : path := [".."; "datasets"; "raw-animals-img"].

Definition quantity : Z := 40.

(** [augment(folder_path, quantity)] *)
Definition run `{Collaborators} (fuel : nat) : M unit :=
  augment fuel folder_path quantity.

End Notebook.

(** ** A stub codec and pipeline, and small dataset trees, to run the code on *)

Module Stub.

(** File data and images are strings; empty data does not decode; only
    names ending in .jpg or .png have an encoder; the pipeline marks the
    image and raises on a missing one. *)
Definition collaborators (draws : nat -> nat) : Collaborators := {|
  image := string;
  content := string;
  cv2_imdecode := fun data =>
    if String.eqb data "" then None else Some data;
  cv2_imencode := fun p img =>
    match last p with
    | Some name => if eligible name then Some img else None
    | None => None
    end;
  augmentation_transforms := fun cur img =>
    match img with
    | Some pixels => (inr ("aug:" +:+ pixels), cur)
    | None => (inl TransformError, cur)
    end;
  random_draws := draws
|}.

Definition start `{Collaborators} (f : gmap path node) : world :=
  World _ f [] 0.

Definition run `{Collaborators} {A} (m : M A) (f : gmap path node)
    : outcome A * world := m (start f).

(** A dataset tree: its directories, and its files with their data. *)
Definition tree (draws : nat -> nat) (dirs : list path)
    (files : list (path * string)) : gmap path (@node (collaborators draws)) :=
  list_to_map
    (((fun p => (p, @Dir (collaborators draws))) <$> dirs) ++
     ((fun pf => (pf.1, @File (collaborators draws) pf.2)) <$> files)).

(** [data/a/b/x.jpg]: a category folder two levels below the root. *)
Definition nested_tree draws :=
  tree draws [[]; ["data"]; ["data"; "a"]; ["data"; "a"; "b"]]
    [(["data"; "a"; "b"; "x.jpg"], "pixels")].



(** [data/cats] holding one image, and a regular file named [augmented]. *)
Definition blocked_tree draws :=
  tree draws [[]; ["data"]; ["data"; "cats"]]
    [(["data"; "cats"; "a.jpg"], "pixels");
     (["data"; "cats"; "augmented"], "not a directory")].

(** [data/cats] holding one image file that does not decode. *)
Definition undecodable_tree draws :=
  tree draws [[]; ["data"]; ["data"; "cats"]]
    [(["data"; "cats"; "a.jpg"], "")].

(** [data/cats] holding an image whose name has two dots, and another. *)
Definition photo_tree draws :=
  tree draws [[]; ["data"]; ["data"; "cats"]]
    [(["data"; "cats"; "img.photo.png"], "pixels");
     (["data"; "cats"; "b.jpg"], "more pixels")].

(** [data/cats] holding two images. *)
Definition cats_tree draws :=
  tree draws [[]; ["data"]; ["data"; "cats"]]
    [(["data"; "cats"; "a.jpg"], "pixels");
     (["data"; "cats"; "b.png"], "more pixels")].

End Stub.

(** ** Reasoning about runs *)

(** The paths read by cv2.imread and written by cv2.imwrite in a trace. *)
Definition reads (evs : list event) : list path :=
  omap (fun e => match e with Imread p => Some p | _ => None end) evs.
Definition writes (evs : list event) : list path :=
  omap (fun e => match e with Imwrite p => Some p | _ => None end) evs.

(** The directories a trace asks os.makedirs to make. *)
Definition makes (evs : list event) : list path :=
  omap (fun e => match e with Makedirs p => Some p | _ => None end) evs.

(** A path lies directly inside a directory named "augmented". *)
Definition in_augmented (p : path) : Prop :=
  Path.basename (Path.parent p) = Some "augmented".

(** The events a run of [augment] on [root] can make: the walk scans below
    [root]; a listing is of [root/d] for a name [d] other than "augmented";
    an image read is an eligible entry of such a listing; a directory made
    is [root/d/augmented]; an image written is the output name of an
    eligible entry, inside [root/d/augmented]. *)
Definition shape (root : path) (e : event) : Prop :=
  match e with
  | Scandir p => exists rest, p = root ++ rest
  | Listdir p => exists d, d <> "augmented" /\ p = Path.join root d
  | Imread p =>
      exists d f, d <> "augmented" /\ eligible f = true /\
        p = Path.join (Path.join root d) f
  | Makedirs p =>
      exists d, d <> "augmented" /\
        p = Path.join (Path.join root d) "augmented"
  | Transform => True
  | Imwrite p =>
      exists d f name, d <> "augmented" /\ eligible f = true /\
        output_filename f = inr name /\
        p = Path.join (Path.join (Path.join root d) "augmented") name
  end.

(** The events that only look at the tree. *)
Definition scanning_only (e : event) : Prop :=
  match e with
  | Scandir _ | Listdir _ => True
  | _ => False
  end.


Section Relations.
Context `{Collaborators}.

(** [m] keeps the relation [T] between the world it starts in and the
    world it stops in, whatever its outcome. *)
Definition keeps {A} (T : world -> world -> Prop) (m : M A) : Prop :=
  forall w, T w (m w).2.

(** The events made between the world [w] and the later world [w']. *)
Definition since (w w' : world) : list event :=
  drop (length (trace w)) (trace w').

(** The trace only grows, by events that satisfy [P]. *)
Definition emits (P : event -> Prop) (w w' : world) : Prop :=
  exists evs, trace w' = trace w ++ evs /\ Forall P evs.

(** What may happen to the node at [p]: nothing; a file is written inside
    a directory named "augmented"; a directory appears where there was
    nothing. *)
Definition node_frame (p : path) (o o' : option node) : Prop :=
  o' = o \/
  (in_augmented p /\ o <> Some Dir /\ exists data, o' = Some (File data)) \/
  (o = None /\ o' = Some Dir).

Definition frame (w w' : world) : Prop :=
  forall p, node_frame p (fs w !! p) (fs w' !! p).

Definition same_fs (w w' : world) : Prop := fs w' = fs w.

Definition both (T1 T2 : world -> world -> Prop) (w w' : world) : Prop :=
  T1 w w' /\ T2 w w'.




#[export] Instance emits_preorder P : PreOrder (emits P).
Proof.
  split.
  - intros w. exists []. split; [now rewrite app_nil_r | constructor].
  - intros w1 w2 w3 (e1 & E1 & F1) (e2 & E2 & F2). exists (e1 ++ e2).
    split; [now rewrite E2, E1, app_assoc | now apply Forall_app].
Qed.

#[export] Instance frame_preorder : PreOrder frame.
Proof.
  split.
  - intros w p. now left.
  - intros w1 w2 w3 F1 F2 p. specialize (F1 p). specialize (F2 p).
    unfold node_frame in *.
    destruct F2 as [->|[(Ha & Hd & data & ->)|(E2 & ->)]]; [exact F1| |].
    + right; left. split; [exact Ha|]. split; [|eauto].
      destruct F1 as [E1|[(_ & Hd1 & _)|(E1 & _)]]; congruence.
    + destruct F1 as [E1|[(_ & _ & data & E1)|(_ & E1)]]; try congruence.
      right; right. split; congruence.
Qed.

#[export] Instance same_fs_preorder : PreOrder same_fs.
Proof. split; unfold same_fs; [easy | intros ???; congruence]. Qed.

#[export] Instance both_preorder T1 T2 :
  PreOrder T1 -> PreOrder T2 -> PreOrder (both T1 T2).
Proof.
  intros P1 P2. split.
  - intros w. split; reflexivity.
  - intros w1 w2 w3 [A1 A2] [B1 B2]. split; etransitivity; eauto.
Qed.

(** What a run on [root] may do to the node at [p]: nothing; make the
    directory [root/d/augmented] where there was nothing; write a file
    [root/d/augmented/name] where there was no directory. *)
Definition node_change (root p : path) (o o' : option node) : Prop :=
  o' = o \/
  (exists d, d <> "augmented" /\
     p = Path.join (Path.join root d) "augmented" /\
     o = None /\ o' = Some Dir) \/
  (exists d name, d <> "augmented" /\
     p = Path.join (Path.join (Path.join root d) "augmented") name /\
     o <> Some Dir /\ exists data, o' = Some (File data)).

Definition changes_below (root : path) (w w' : world) : Prop :=
  forall p, node_change root p (fs w !! p) (fs w' !! p).

#[export] Instance changes_below_preorder root : PreOrder (changes_below root).
Proof.
  split.
  - intros w p. now left.
  - intros w1 w2 w3 C1 C2 p. specialize (C1 p). specialize (C2 p).
    unfold node_change in *.
    destruct C2 as [->|[(d & Hd & Hp & Hn & ->)|(d & name & Hd & Hp & Hn & data & ->)]];
      [exact C1| |].
    + right; left. exists d. repeat split; try assumption.
      destruct C1 as [E1|[(? & _ & _ & _ & E1)|(? & ? & _ & _ & _ & ? & E1)]];
        congruence.
    + right; right. exists d, name. repeat split; try assumption; [|eauto].
      destruct C1 as [E1|[(? & _ & _ & E1 & _)|(? & ? & _ & _ & E1 & _)]];
        congruence.
Qed.

(** The length of the longest path of the tree. *)
Definition depth (f : gmap path node) : nat :=
  foldr max 0 ((fun kv => length kv.1) <$> map_to_list f).

(** Every path of [w'] is a path of [w] or has at most [N] components. *)
Definition bounded (N : nat) (w w' : world) : Prop :=
  forall p, is_Some (fs w' !! p) -> is_Some (fs w !! p) \/ length p <= N.

(** [m] does not run out of fuel. *)
Definition finishes {A} (m : M A) : Prop :=
  forall w, (m w).1 <> OutOfFuel.

#[export] Instance bounded_preorder N : PreOrder (bounded N).
Proof.
  split.
  - intros w p Hp. now left.
  - intros w1 w2 w3 H12 H23 p Hp.
    destruct (H23 p Hp) as [Hp2|]; [now apply H12 | now right].
Qed.

(** The number of calls of the augmentation pipeline in a trace. *)
Definition transforms (evs : list event) : nat :=
  length (omap (fun e => match e with Transform => Some tt | _ => None end) evs).

(** No write without a transform before it, no transform without a read. *)
Definition paced (evs : list event) : Prop :=
  length (writes evs) <= transforms evs /\ transforms evs <= length (reads evs).

Definition paced_run (w w' : world) : Prop :=
  exists evs, trace w' = trace w ++ evs /\ paced evs.




(** In the tree [f0], [p] is [root/d/augmented] for a directory [root/d]
    that has no entry of that name: what os.makedirs needs to make [p]. *)
Definition can_be_made (root : path) (f0 : gmap path node) (p : path) : Prop :=
  exists d, d <> "augmented" /\
    p = Path.join (Path.join root d) "augmented" /\
    f0 !! Path.join root d = Some Dir /\ f0 !! p = None.

(** The changes are those of a run on [root], and the directories asked
    of os.makedirs could be made in the tree the run started from. *)
Definition makes_in_place (root : path) (w w' : world) : Prop :=
  changes_below root w w' /\
  exists evs, trace w' = trace w ++ evs /\
    Forall (can_be_made root (fs w)) (makes evs).

End Relations.

(** ** Output names *)

Section OutputNames.

Lemma split_nonempty sep s : PyStr.split sep s <> [].
Proof.
  destruct s as [|c s]; simpl; [discriminate|].
  destruct (Ascii.eqb c sep); [discriminate|].
  destruct (PyStr.split sep s); discriminate.
Qed.

Lemma split_first sep s :
  PyStr.split sep s !! 0 = Some (PyStr.text_before_first sep s).
Proof.
  induction s as [|c s IH]; simpl; [reflexivity|].
  destruct (Ascii.eqb c sep); [reflexivity|].
  destruct (PyStr.split sep s) as [|piece pieces]; simpl in *; congruence.
Qed.

Lemma split_second sep s :
  PyStr.contains sep s = true ->
  PyStr.split sep s !! 1 =
    Some (PyStr.text_before_first sep (PyStr.text_after_first sep s)).
Proof.
  induction s as [|c s IH]; simpl; [discriminate|].
  destruct (Ascii.eqb c sep); intros Hc.
  - apply split_first.
  - specialize (IH Hc).
    destruct (PyStr.split sep s) as [|piece pieces]; simpl in *; congruence.
Qed.

Lemma endswith_contains sep s suffix :
  PyStr.endswith s suffix = true ->
  PyStr.contains sep suffix = true ->
  PyStr.contains sep s = true.
Proof.
  induction s as [|c s IH]; cbn [PyStr.endswith PyStr.contains].
  - destruct (String.eqb_spec "" suffix) as [<-|]; [|intros; discriminate].
    intros _ Hc; exact Hc.
  - destruct (String.eqb_spec (String c s) suffix) as [<-|_].
    + intros _ Hc; exact Hc.
    + intros He Hc. destruct (Ascii.eqb c sep); [reflexivity|]. now apply IH.
Qed.

Lemma eligible_contains_dot filename :
  eligible filename = true -> PyStr.contains dot filename = true.
Proof.
  unfold eligible. intros He.
  apply Bool.orb_true_iff in He as [He|He];
    (eapply endswith_contains; [exact He | reflexivity]).
Qed.

Lemma output_filename_eligible filename :
  eligible filename = true ->
  output_filename filename =
    inr (PyStr.text_before_first dot filename +:+ "-aug." +:+
         PyStr.text_before_first dot (PyStr.text_after_first dot filename)).
Proof.
  intros He. unfold output_filename, PyStr.index.
  rewrite split_first, split_second by now apply eligible_contains_dot.
  reflexivity.
Qed.

Lemma text_before_first_no_sep sep s :
  PyStr.contains sep s = false -> PyStr.text_before_first sep s = s.
Proof.
  induction s as [|c s IH]; simpl; [reflexivity|].
  destruct (Ascii.eqb c sep); [discriminate|]. intros Hc. now rewrite IH.
Qed.

End OutputNames.

(** ** Composition of runs *)

Section Composition.
Context `{Collaborators}.

Lemma keeps_ret {A} T `{!PreOrder T} (a : A) : keeps T (ret a).
Proof. intros w. reflexivity. Qed.

Lemma keeps_raise {A} T `{!PreOrder T} e : keeps T (raise (A:=A) e).
Proof. intros w. reflexivity. Qed.

Lemma keeps_bind {A B} T `{!PreOrder T} (m : M A) (k : A -> M B) :
  keeps T m -> (forall a, keeps T (k a)) -> keeps T (bind m k).
Proof.
  intros Hm Hk w. unfold bind. specialize (Hm w).
  destruct (m w) as [[a| |] w1]; simpl in *; try exact Hm.
  etransitivity; [exact Hm | apply Hk].
Qed.

Lemma keeps_lift {A} T `{!PreOrder T} (r : exception + A) : keeps T (lift r).
Proof. destruct r; [apply keeps_raise | apply keeps_ret]; assumption. Qed.

Lemma keeps_pass T `{!PreOrder T} m :
  keeps T m -> keeps T (pass_FileExistsError m).
Proof.
  intros Hm w. unfold pass_FileExistsError. specialize (Hm w).
  destruct (m w) as [[a|[]|] w1]; exact Hm.
Qed.

Lemma keeps_for {A} T `{!PreOrder T} (l : list A) body :
  (forall x, x ∈ l -> keeps T (body x)) -> keeps T (for_ l body).
Proof.
  induction l as [|x l IH]; intros Hb; simpl.
  - now apply keeps_ret.
  - apply keeps_bind; [assumption | apply Hb; left | intros _].
    apply IH. intros y Hy. apply Hb. now right.
Qed.

Lemma keeps_walk T `{!PreOrder T} body (good : path -> Prop) :
  (forall top dirs nondirs, keeps T (body top dirs nondirs)) ->
  (forall top, good top -> keeps T (emit (Scandir top))) ->
  (forall top name, good top -> good (Path.join top name)) ->
  forall fuel top, good top -> keeps T (os_walk fuel body top).
Proof.
  intros Hbody Hscan Hjoin. induction fuel as [|fuel IH]; intros top Hg; simpl.
  - intros w. reflexivity.
  - apply keeps_bind; [assumption | now apply Hscan | intros _].
    intros w. unfold bind at 1, get_fs. cbn [fst snd].
    destruct (scandir (fs w) top) as [[dirs nondirs]|].
    + apply keeps_bind; [assumption | apply Hbody | intros _].
      apply keeps_for; [assumption|]. intros d _. apply IH. now apply Hjoin.
    + reflexivity.
Qed.

Lemma keeps_both {A} T1 T2 (m : M A) :
  keeps T1 m -> keeps T2 m -> keeps (both T1 T2) m.
Proof. intros H1 H2 w. split; [apply H1 | apply H2]. Qed.

End Composition.

Ltac keeps_with base :=
  repeat
    lazymatch goal with
    | |- keeps _ (ret _) => apply keeps_ret; typeclasses eauto
    | |- keeps _ (raise _) => apply keeps_raise; typeclasses eauto
    | |- keeps _ (lift _) => apply keeps_lift; typeclasses eauto
    | |- keeps _ (pass_FileExistsError _) =>
        apply keeps_pass; [typeclasses eauto|]
    | |- keeps _ (bind _ _) => apply keeps_bind; [typeclasses eauto| |intros ?]
    | |- keeps _ (match ?x with _ => _ end) => destruct x
    | |- keeps _ _ => base
    end.

Section Primitives.
Context `{Collaborators}.

Lemma keeps_emits_emit P e : P e -> keeps (emits P) (emit e).
Proof. intros He w. exists [e]. split; [reflexivity | now constructor]. Qed.

Lemma keeps_emits_silent {A} P (m : M A) :
  (forall w, trace (m w).2 = trace w) -> keeps (emits P) m.
Proof.
  intros Hm w. exists []. split; [now rewrite app_nil_r, Hm | constructor].
Qed.

Lemma keeps_frame_pure {A} (m : M A) :
  (forall w, fs (m w).2 = fs w) -> keeps frame m.
Proof. intros Hm w p. left. now rewrite Hm. Qed.

Lemma transform_raw_silent img w :
  let m : M image := fun w =>
    let '(r, c) := augmentation_transforms (cursor w) img in
    let w' := World _ (fs w) (trace w) c in
    match r with
    | inl e => (Raise e, w')
    | inr out => (Return out, w')
    end in
  trace (m w).2 = trace w /\ fs (m w).2 = fs w.
Proof.
  simpl. destruct (augmentation_transforms (cursor w) img) as [[e|out] c];
    split; reflexivity.
Qed.

Lemma np_random_choice_silent {A} (a : list A) size w :
  trace (np_random_choice a size w).2 = trace w /\
  fs (np_random_choice a size w).2 = fs w.
Proof.
  unfold np_random_choice.
  destruct (size <? 0)%Z; [split; reflexivity|].
  destruct (Z.of_nat (length a) <? size)%Z; split; reflexivity.
Qed.

Ltac emits_base :=
  first
    [ apply keeps_emits_emit
    | apply keeps_emits_silent; intros ?;
      first [ reflexivity
            | apply transform_raw_silent
            | apply np_random_choice_silent ] ].

Lemma makedirs_rev_emits P rname : keeps (emits P) (makedirs_rev rname).
Proof.
  induction rname as [|tail rhead IH]; cbn [makedirs_rev];
    unfold os_mkdir, os_path_exists; keeps_with emits_base; exact IH.
Qed.

Lemma os_listdir_emits P p : P (Listdir p) -> keeps (emits P) (os_listdir p).
Proof. intros HP. unfold os_listdir. keeps_with emits_base. exact HP. Qed.

Lemma os_path_exists_emits P p : keeps (emits P) (os_path_exists p).
Proof. unfold os_path_exists. keeps_with emits_base. Qed.

Lemma os_makedirs_emits P p : P (Makedirs p) -> keeps (emits P) (os_makedirs p).
Proof.
  intros HP. unfold os_makedirs. keeps_with emits_base;
    [exact HP | apply makedirs_rev_emits].
Qed.

Lemma cv2_imread_emits P p : P (Imread p) -> keeps (emits P) (cv2_imread p).
Proof. intros HP. unfold cv2_imread. keeps_with emits_base; exact HP. Qed.

Lemma cv2_imwrite_emits P p img :
  P (Imwrite p) -> keeps (emits P) (cv2_imwrite p img).
Proof. intros HP. unfold cv2_imwrite. keeps_with emits_base; exact HP. Qed.

Lemma transform_emits P img : P Transform -> keeps (emits P) (transform img).
Proof. intros HP. unfold transform. keeps_with emits_base. exact HP. Qed.

Lemma np_random_choice_emits {A} P (a : list A) size :
  keeps (emits P) (np_random_choice a size).
Proof. emits_base. Qed.

End Primitives.

(** ** What a run of [augment] does to the trace *)

Section Shapes.
Context `{Collaborators}.

Lemma bind_ret_l {A B} (a : A) (k : A -> M B) : bind (ret a) k = k a.
Proof. reflexivity. Qed.

Lemma augment_file_emits root d filename :
  d <> "augmented" ->
  keeps (emits (shape root)) (augment_file (Path.join root d) filename).
Proof.
  intros Hd. unfold augment_file.
  destruct (eligible filename) eqn:He; [|now apply keeps_ret; apply _].
  apply keeps_bind; [apply _ | apply cv2_imread_emits; simpl; eauto 6 |].
  intros img. apply keeps_bind; [apply _ | | intros _].
  - apply keeps_bind; [apply _ | apply os_path_exists_emits |].
    intros []; simpl; [now apply keeps_ret; apply _|].
    apply os_makedirs_emits. simpl. eauto.
  - rewrite (output_filename_eligible _ He). cbn [lift]. rewrite bind_ret_l.
    apply keeps_bind; [apply _ | now apply transform_emits |].
    intros augmented_img.
    apply keeps_bind; [apply _ | | intros _; now apply keeps_ret; apply _].
    apply cv2_imwrite_emits. simpl. exists d, filename. eexists.
    split; [exact Hd|]. split; [exact He|].
    split; [now apply output_filename_eligible | reflexivity].
Qed.

Lemma augment_dirname_emits root quantity dirname :
  keeps (emits (shape root)) (augment_dirname root quantity dirname).
Proof.
  unfold augment_dirname.
  destruct (String.eqb_spec dirname "augmented") as [->|Hd]; simpl;
    [now apply keeps_ret; apply _|].
  apply keeps_bind; [apply _ | apply os_listdir_emits; simpl; eauto |].
  intros files.
  apply keeps_bind; [apply _ | apply np_random_choice_emits |].
  intros sampled. apply keeps_for; [apply _|].
  intros f _. now apply augment_file_emits.
Qed.

Lemma augment_emits fuel root quantity :
  keeps (emits (shape root)) (augment fuel root quantity).
Proof.
  unfold augment.
  apply keeps_walk with (good := fun top => exists rest, top = root ++ rest).
  - apply _.
  - intros top dirs nondirs. apply keeps_for; [apply _|].
    intros d _. apply augment_dirname_emits.
  - intros top Hg. now apply keeps_emits_emit.
  - intros top name [rest ->]. exists (rest ++ [name]).
    unfold Path.join. now rewrite app_assoc.
  - exists []. now rewrite app_nil_r.
Qed.

End Shapes.

(** ** What a run of [augment] does to the filesystem *)

Section Frames.
Context `{Collaborators}.

Lemma parent_join p name : Path.parent (Path.join p name) = p.
Proof. apply removelast_last. Qed.

Lemma basename_join p name : Path.basename (Path.join p name) = Some name.
Proof. apply last_snoc. Qed.

Lemma in_augmented_join p name :
  in_augmented (Path.join (Path.join p "augmented") name).
Proof. unfold in_augmented. now rewrite parent_join, basename_join. Qed.

Lemma os_mkdir_frame p : keeps frame (os_mkdir p).
Proof.
  intros w q. unfold os_mkdir, bind, get_fs, put_fs, raise.
  destruct (fs w !! p) as [n|] eqn:Hp; [now left|].
  destruct p as [|c p']; [now left|].
  destruct (fs w !! Path.parent (c :: p')) as [[data|]|]; try now left.
  cbn [snd fs]. destruct (decide (q = c :: p')) as [->|Hq].
  - right; right. now rewrite lookup_insert_eq.
  - left. now rewrite lookup_insert_ne.
Qed.

Lemma makedirs_rev_frame rname : keeps frame (makedirs_rev rname).
Proof.
  induction rname as [|tail rhead IH]; cbn [makedirs_rev];
    [apply os_mkdir_frame|].
  apply keeps_bind; [apply _ | | intros _; apply os_mkdir_frame].
  apply keeps_bind; [apply _ | now apply keeps_frame_pure |].
  intros head_exists. destruct rhead; [now apply keeps_ret; apply _|].
  destruct head_exists; [now apply keeps_ret; apply _|].
  apply keeps_pass; [apply _ | exact IH].
Qed.

Lemma os_makedirs_frame name : keeps frame (os_makedirs name).
Proof.
  unfold os_makedirs.
  apply keeps_bind; [apply _ | now apply keeps_frame_pure |].
  intros _. apply makedirs_rev_frame.
Qed.

Lemma cv2_imwrite_frame p img :
  in_augmented p -> keeps frame (cv2_imwrite p img).
Proof.
  intros Hp w q. unfold cv2_imwrite, bind, emit, get_fs, put_fs, raise, ret.
  cbn [fst snd fs]. destruct (cv2_imencode p img) as [data|]; [|now left].
  cbn [fs]. destruct (is_dir (fs w) (Path.parent p)); [|now left].
  unfold is_dir. destruct (fs w !! p) as [[old|]|] eqn:Ep; cbn; try now left.
  - destruct (decide (q = p)) as [->|Hq].
    + right; left. rewrite lookup_insert_eq, Ep. split; [exact Hp|].
      split; [discriminate | eauto].
    + left. now rewrite lookup_insert_ne.
  - destruct (decide (q = p)) as [->|Hq].
    + right; left. rewrite lookup_insert_eq, Ep. split; [exact Hp|].
      split; [discriminate | eauto].
    + left. now rewrite lookup_insert_ne.
Qed.

Lemma augment_file_frame nested filename :
  keeps frame (augment_file nested filename).
Proof.
  unfold augment_file.
  destruct (eligible filename); [|now apply keeps_ret; apply _].
  apply keeps_bind; [apply _ | |].
  { apply keeps_frame_pure. intros w. unfold cv2_imread, bind, emit, get_fs.
    cbn. now destruct (fs w !! _) as [[]|]. }
  intros img. apply keeps_bind; [apply _ | | intros _].
  - apply keeps_bind; [apply _ | now apply keeps_frame_pure |].
    intros []; simpl; [now apply keeps_ret; apply _|].
    apply os_makedirs_frame.
  - apply keeps_bind; [apply _ | apply keeps_lift; apply _ |].
    intros name. apply keeps_bind; [apply _ | |].
    { apply keeps_frame_pure. intros w. unfold transform, bind, emit. cbn.
      now destruct (augmentation_transforms _ _) as [[|] ?]. }
    intros augmented_img.
    apply keeps_bind; [apply _ | | intros _; now apply keeps_ret; apply _].
    apply cv2_imwrite_frame, in_augmented_join.
Qed.

Lemma augment_dirname_frame root quantity dirname :
  keeps frame (augment_dirname root quantity dirname).
Proof.
  unfold augment_dirname.
  destruct (negb _); [|now apply keeps_ret; apply _].
  apply keeps_bind; [apply _ | |].
  { apply keeps_frame_pure. intros w. unfold os_listdir, bind, emit, get_fs.
    cbn. now destruct (fs w !! _) as [[]|]. }
  intros files. apply keeps_bind; [apply _ | |].
  { apply keeps_frame_pure. intros w. apply np_random_choice_silent. }
  intros sampled. apply keeps_for; [apply _|].
  intros f _. apply augment_file_frame.
Qed.

Lemma augment_frame fuel root quantity :
  keeps frame (augment fuel root quantity).
Proof.
  unfold augment. apply keeps_walk with (good := fun _ => True); try easy.
  - apply _.
  - intros top dirs nondirs. apply keeps_for; [apply _|].
    intros d _. apply augment_dirname_frame.
  - intros top _. now apply keeps_frame_pure.
Qed.

End Frames.

(** ** Reading a run's events *)

Section Runs.
Context `{Collaborators}.

Lemma since_grown w w' evs : trace w' = trace w ++ evs -> since w w' = evs.
Proof. unfold since. intros ->. apply drop_app_length. Qed.

Lemma emits_since P w w' : emits P w w' -> Forall P (since w w').
Proof. intros (evs & Ht & HP). now rewrite (since_grown _ _ _ Ht). Qed.


Lemma Forall_writes (P : event -> Prop) (Q : path -> Prop) evs :
  (forall p, P (Imwrite p) -> Q p) -> Forall P evs -> Forall Q (writes evs).
Proof.
  intros HPQ. induction 1 as [|e evs He _ IH]; [constructor|].
  unfold writes in *. destruct e; cbn; auto.
Qed.

Lemma join_inj p q a b : Path.join p a = Path.join q b -> p = q /\ a = b.
Proof. apply app_inj_tail. Qed.

(** What [os.listdir(p)] does, in one step. *)
Lemma os_listdir_run p w :
  os_listdir p w =
    (match fs w !! p with
     | Some Dir => Return (entries (fs w) p)
     | Some (File _) => Raise NotADirectoryError
     | None => Raise FileNotFoundError
     end,
     World _ (fs w) (trace w ++ [Listdir p]) (cursor w)).
Proof.
  unfold os_listdir, bind, emit, get_fs. cbn [fs].
  now destruct (fs w !! p) as [[data|]|].
Qed.

(** With [quantity = 0] the sample of every listing is empty. *)
Lemma augment_dirname_zero root dirname :
  keeps (both same_fs (emits scanning_only)) (augment_dirname root 0 dirname).
Proof.
  intros w. unfold augment_dirname.
  destruct (negb _); [|reflexivity].
  assert (Hone : forall (r : outcome unit) c,
    both same_fs (emits scanning_only) w
      (r, World _ (fs w) (trace w ++ [Listdir (Path.join root dirname)]) c).2).
  { intros r c. split; [reflexivity|]. eexists. split; [reflexivity|].
    now repeat constructor. }
  unfold bind at 1. rewrite os_listdir_run.
  destruct (fs w !! Path.join root dirname) as [[data|]|]; try apply Hone.
  unfold bind, np_random_choice. rewrite Z.min_l by lia. cbn.
  destruct (Z.ltb_spec (Z.of_nat (length (entries (fs w)
    (Path.join root dirname)))) 0) as [Hlen|_]; [lia|].
  apply (Hone (Return tt)).
Qed.

Lemma augment_zero fuel root :
  keeps (both same_fs (emits scanning_only)) (augment fuel root 0).
Proof.
  unfold augment. apply keeps_walk with (good := fun _ => True); try easy.
  - apply _.
  - intros top dirs nondirs. apply keeps_for; [apply _|].
    intros d _. apply augment_dirname_zero.
  - intros top _. apply keeps_both; [easy | now apply keeps_emits_emit].
Qed.

End Runs.

(** ** Where a run stops when it raises *)

Section Stops.
Context `{Collaborators}.




















End Stops.

(** ** Sampling, listings, and what a returning run has processed *)

Section Sampling.
Context {A : Type}.
Implicit Types (a : list A) (draws : nat -> nat).

Lemma sample_step draws cur a x :
  a <> [] ->
  let i := draws cur mod length a in
  a ≡ₚ nth i a x :: delete i a /\ length (delete i a) = length a - 1.
Proof.
  intros Ha i.
  assert (Hi : i < length a).
  { apply Nat.mod_upper_bound. destruct a; [done | simpl; lia]. }
  destruct (lookup_lt_is_Some_2 a i Hi) as [y Hy].
  rewrite (nth_lookup_Some _ _ _ _ Hy). split.
  - now apply delete_Permutation.
  - apply length_delete. eauto.
Qed.

Lemma sample_length draws cur a size :
  length (sample_without_replacement draws cur a size) = min size (length a).
Proof.
  revert cur a. induction size as [|size IH]; intros cur a; [reflexivity|].
  destruct a as [|x a0]; [reflexivity|]. cbn [sample_without_replacement].
  destruct (sample_step draws cur (x :: a0) x) as [_ Hlen]; [done|].
  cbv zeta in Hlen. cbn [length] in *. rewrite IH, Hlen. lia.
Qed.

Lemma sample_rest draws cur a size :
  exists rest, a ≡ₚ sample_without_replacement draws cur a size ++ rest.
Proof.
  revert cur a. induction size as [|size IH]; intros cur a; [now exists a|].
  destruct a as [|x a0]; [now exists []|]. cbn [sample_without_replacement].
  destruct (sample_step draws cur (x :: a0) x) as [Hp _]; [done|].
  destruct (IH (S cur) (delete (draws cur mod length (x :: a0)) (x :: a0)))
    as [rest Hrest].
  exists rest. rewrite Hp at 1. cbn [app]. now rewrite <- Hrest.
Qed.

Lemma sample_all draws cur a size :
  length a <= size -> sample_without_replacement draws cur a size ≡ₚ a.
Proof.
  intros Hsize. destruct (sample_rest draws cur a size) as [rest Hrest].
  assert (Hlen : length rest = 0).
  { apply Permutation_length in Hrest.
    rewrite length_app, sample_length in Hrest. lia. }
  destruct rest; [|discriminate]. now rewrite app_nil_r in Hrest.
Qed.

Lemma sample_NoDup draws cur a size :
  NoDup a -> NoDup (sample_without_replacement draws cur a size).
Proof.
  intros Ha. destruct (sample_rest draws cur a size) as [rest Hrest].
  rewrite Hrest in Ha. now apply NoDup_app in Ha as [? _].
Qed.

Lemma sample_subseteq draws cur a size :
  sample_without_replacement draws cur a size ⊆ a.
Proof.
  intros x Hx. destruct (sample_rest draws cur a size) as [rest Hrest].
  rewrite Hrest. apply elem_of_app. now left.
Qed.

End Sampling.

Section Listings.
Context `{Collaborators}.

Lemma child_of_Some p k name :
  Path.child_of p k = Some name <-> k = Path.join p name.
Proof.
  revert k. induction p as [|a p IH]; intros k; cbn.
  - destruct k as [|b [|c k]]; cbn; split; congruence.
  - destruct k as [|b k]; [split; [discriminate|] |].
    + unfold Path.join. cbn. discriminate.
    + destruct (String.eqb_spec a b) as [->|Hab].
      * rewrite IH. unfold Path.join. cbn. split; congruence.
      * unfold Path.join. cbn. split; congruence.
Qed.

Lemma elem_of_entries f p name :
  name ∈ entries f p <-> is_Some (f !! Path.join p name).
Proof.
  unfold entries. rewrite list_elem_of_omap. split.
  - intros ([k n] & Hin & Hc). apply elem_of_map_to_list in Hin.
    apply child_of_Some in Hc. cbn in Hc. subst k. eauto.
  - intros [n Hn]. exists (Path.join p name, n).
    split; [now apply elem_of_map_to_list | now apply child_of_Some].
Qed.

Lemma NoDup_omap_inj {A B} (g : A -> option B) (l : list A) :
  (forall x y z, x ∈ l -> y ∈ l -> g x = Some z -> g y = Some z -> x = y) ->
  NoDup l -> NoDup (omap g l).
Proof.
  intros Hinj Hl. induction Hl as [|x l Hx Hl IH]; cbn; [constructor|].
  assert (IH' : NoDup (omap g l)).
  { apply IH. intros y1 y2 z H1 H2. apply Hinj; now right. }
  destruct (g x) as [z|] eqn:Hgx; [|exact IH'].
  constructor; [|exact IH'].
  intros (y & Hy & Hgy)%list_elem_of_omap. apply Hx.
  now rewrite (Hinj x y z) by (try left; try right; auto).
Qed.

Lemma entries_NoDup f p : NoDup (entries f p).
Proof.
  unfold entries. apply NoDup_omap_inj; [|apply NoDup_map_to_list].
  intros [k1 n1] [k2 n2] z H1 H2 Hc1 Hc2.
  apply child_of_Some in Hc1, Hc2. cbn in Hc1, Hc2. subst k1 k2.
  apply elem_of_map_to_list in H1, H2. congruence.
Qed.

End Listings.

Section Processed.
Context `{Collaborators}.

Lemma makedirs_rev_silent rname w :
  trace (makedirs_rev rname w).2 = trace w.
Proof.
  destruct (makedirs_rev_emits (fun _ => False) rname w) as (evs & Ht & Hno).
  destruct evs as [|ev evs]; [|now inversion Hno].
  now rewrite app_nil_r in Ht.
Qed.

Lemma os_makedirs_trace name w :
  trace (os_makedirs name w).2 = trace w ++ [Makedirs name].
Proof.
  unfold os_makedirs, bind, emit. cbv beta iota.
  now rewrite makedirs_rev_silent.
Qed.

Lemma cv2_imread_trace p w :
  exists img, cv2_imread p w =
    (Return img, World _ (fs w) (trace w ++ [Imread p]) (cursor w)).
Proof.
  unfold cv2_imread, bind, emit, get_fs, ret. cbv beta iota. cbn [fs].
  destruct (fs w !! p) as [[data|]|]; eauto.
Qed.

Lemma transform_trace img w :
  trace (transform img w).2 = trace w ++ [Transform].
Proof.
  unfold transform, bind, emit. cbv beta iota. cbn [cursor fs trace].
  now destruct (augmentation_transforms (cursor w) img) as [[e|out] c].
Qed.

Lemma cv2_imwrite_trace p img w :
  trace (cv2_imwrite p img w).2 = trace w ++ [Imwrite p].
Proof.
  unfold cv2_imwrite, bind, emit, get_fs, put_fs, ret, raise. cbv beta iota.
  destruct (cv2_imencode p img) as [data|]; [|reflexivity].
  cbn [fs]. now destruct (_ && _).
Qed.

(** The events of one sampled entry that was processed to the end. *)
Lemma augment_file_returns nested filename w w' :
  augment_file nested filename w = (Return tt, w') ->
  if eligible filename then
    exists name mk,
      output_filename filename = inr name /\
      (mk = [] \/ mk = [Makedirs (Path.join nested "augmented")]) /\
      trace w' = trace w ++
        Imread (Path.join nested filename) :: mk ++
        [Transform; Imwrite (Path.join (Path.join nested "augmented") name)]
  else w' = w.
Proof.
  unfold augment_file. destruct (eligible filename) eqn:He;
    [|now intros [= <-]].
  rewrite (output_filename_eligible _ He). cbn [lift].
  unfold bind at 1.
  destruct (cv2_imread_trace (Path.join nested filename) w) as [img ->].
  set (w1 := World _ _ _ _). unfold bind at 1.
  set (output_dir := Path.join nested "augmented").
  match goal with |- context [bind (os_path_exists ?d) ?k w1] =>
    assert (Hmk : exists mk, (mk = [] \/ mk = [Makedirs output_dir]) /\
              trace (bind (os_path_exists d) k w1).2 = trace w1 ++ mk);
    [|destruct (bind (os_path_exists d) k w1) as [[[]| |] w2]]
  end.
  { unfold os_path_exists, get_fs, ret, bind. cbv beta iota.
    destruct (bool_decide (is_Some (fs w1 !! output_dir))); cbn [negb].
    - exists []. split; [now left | now rewrite app_nil_r].
    - exists [Makedirs output_dir]. split; [now right|].
      apply os_makedirs_trace. }
  2,3: discriminate.
  destruct Hmk as (mk & Hmk & Ht2). cbn [snd] in Ht2.
  rewrite bind_ret_l. unfold bind at 1.
  pose proof (transform_trace img w2) as Ht3.
  destruct (transform img w2) as [[out| |] w3]; [|discriminate..].
  cbn [snd] in Ht3. unfold bind at 1.
  match goal with |- context [cv2_imwrite ?p out w3] =>
    pose proof (cv2_imwrite_trace p out w3) as Ht4;
    destruct (cv2_imwrite p out w3) as [[b| |] w4]; [|discriminate..]
  end.
  cbn [snd] in Ht4. intros [= <-]. eexists _, mk.
  split; [reflexivity|]. split; [exact Hmk|].
  rewrite Ht4, Ht3, Ht2. subst w1. cbn [trace].
  rewrite <- !app_assoc. reflexivity.
Qed.

Lemma reads_app e1 e2 : reads (e1 ++ e2) = reads e1 ++ reads e2.
Proof. apply omap_app. Qed.

Lemma writes_app e1 e2 : writes (e1 ++ e2) = writes e1 ++ writes e2.
Proof. apply omap_app. Qed.

(** The images of [l]: its entries with an eligible name. *)
Lemma for_augment_file_returns nested (l : list string) w w' :
  for_ l (augment_file nested) w = (Return tt, w') ->
  exists evs names,
    trace w' = trace w ++ evs /\
    reads evs = Path.join nested <$> filter (fun f => eligible f = true) l /\
    Forall2 (fun f name => output_filename f = inr name)
      (filter (fun f => eligible f = true) l) names /\
    writes evs = Path.join (Path.join nested "augmented") <$> names.
Proof.
  revert w. induction l as [|f l IH]; intros w; cbn [for_].
  - intros [= <-]. exists [], []. rewrite app_nil_r. repeat split. constructor.
  - unfold bind at 1.
    destruct (augment_file nested f w) as [[[]| |] w1] eqn:Hf;
      [|discriminate..].
    intros Hl. apply IH in Hl as (evs & names & Ht & Hr & Hn & Hw).
    apply augment_file_returns in Hf. rewrite filter_cons.
    destruct (eligible f) eqn:He.
    + destruct Hf as (name & mk & Hname & Hmk & Ht1).
      rewrite decide_True by reflexivity.
      eexists (_ ++ evs), (name :: names).
      split; [rewrite Ht, Ht1, <- app_assoc; reflexivity|].
      rewrite reads_app, writes_app, Hr, Hw.
      split; [|split; [now constructor|]];
        destruct Hmk as [-> | ->]; reflexivity.
    + subst w1. rewrite decide_False by discriminate.
      exists evs, names. auto.
Qed.

End Processed.

Section Categories.
Context `{Collaborators}.

Lemma np_random_choice_returns {A} (a : list A) size w s w' :
  np_random_choice a size w = (Return s, w') ->
  (0 <= size <= Z.of_nat (length a))%Z /\
  s = sample_without_replacement random_draws (cursor w) a (Z.to_nat size) /\
  trace w' = trace w.
Proof.
  unfold np_random_choice.
  destruct (Z.ltb_spec size 0); [discriminate|].
  destruct (Z.ltb_spec (Z.of_nat (length a)) size); [discriminate|].
  intros [= <- <-]. repeat split; lia.
Qed.

(** One listing of a category folder that was processed to the end: the
    sample drawn from its entries, and the images read and written. *)
Lemma augment_dirname_returns root quantity dirname w w' :
  dirname <> "augmented" ->
  augment_dirname root quantity dirname w = (Return tt, w') ->
  let nested := Path.join root dirname in
  let files := entries (fs w) nested in
  let sampled :=
    sample_without_replacement random_draws (cursor w) files
      (Z.to_nat (Z.min quantity (Z.of_nat (length files)))) in
  (0 <= quantity)%Z /\
  exists names,
    reads (since w w') = Path.join nested <$> images sampled /\
    Forall2 (fun f name => output_filename f = inr name)
      (images sampled) names /\
    writes (since w w') = Path.join (Path.join nested "augmented") <$> names.
Proof.
  intros Hd. unfold augment_dirname.
  destruct (String.eqb_spec dirname "augmented") as [|_]; [done|].
  cbn [negb]. unfold bind at 1. rewrite os_listdir_run.
  destruct (fs w !! Path.join root dirname) as [[data|]|]; [discriminate| |discriminate].
  unfold bind at 1.
  destruct (np_random_choice _ _ _) as [[s| |] w1] eqn:Hs; [|discriminate..].
  apply np_random_choice_returns in Hs as (Hq & -> & Ht1). cbn [cursor] in *.
  intros Hl.
  apply for_augment_file_returns in Hl as (evs & names & Ht & Hr & Hn & Hw).
  split; [lia|]. exists names.
  rewrite Ht1 in Ht. cbn [trace] in Ht. rewrite <- app_assoc in Ht.
  rewrite (since_grown _ _ _ Ht). cbn [fs] in *. auto.
Qed.

End Categories.


#[local] Instance join_inj_name nested : Inj (=) (=) (Path.join nested).
Proof. intros a b Hab. now apply join_inj in Hab. Qed.

(** ** The specification's claims *)

Section TraceClaims.
Context `{Collaborators}.

(** C1 (the code departs from it): the listing made for a subdirectory name
    joins the name to the root folder, not to the directory the walk is
    visiting; so a directory [top/d] with [top] other than the root is
    never listed, however deep the walk goes. *)
Theorem listing_joins_the_root fuel root quantity w top d :
  top <> root ->
  Listdir (Path.join top d) ∉ since w (augment fuel root quantity w).2.
Proof.
  intros Htop Hin.
  pose proof (emits_since _ _ _ (augment_emits fuel root quantity w)) as Hs.
  rewrite Forall_forall in Hs. apply Hs in Hin as (d' & _ & Hp).
  now apply join_inj in Hp as [? _].
Qed.

(** C6: in every run, no directory named "augmented" is listed for
    sampling, and no file lying directly in such a directory is read as a
    source image. *)
Theorem augmented_is_never_a_source fuel root quantity w :
  let evs := since w (augment fuel root quantity w).2 in
  (forall p, Listdir p ∈ evs -> Path.basename p <> Some "augmented") /\
  (forall p, Imread p ∈ evs -> ~ in_augmented p).
Proof.
  intros evs.
  pose proof (emits_since _ _ _ (augment_emits fuel root quantity w)) as Hs.
  rewrite Forall_forall in Hs. split; intros p Hin; apply Hs in Hin.
  - destruct Hin as (d & Hd & ->). rewrite basename_join. congruence.
  - destruct Hin as (d & f & Hd & _ & ->). unfold in_augmented.
    rewrite parent_join, basename_join. congruence.
Qed.

(** C7: a run with [quantity = 0] leaves the filesystem as it found it,
    and does nothing but scan and list directories: it makes no directory
    and writes no file. *)
Theorem quantity_zero_writes_nothing fuel root w :
  let w' := (augment fuel root 0 w).2 in
  fs w' = fs w /\ Forall scanning_only (since w w').
Proof.
  destruct (augment_zero fuel root w) as [Hfs Hev].
  split; [exact Hfs | now apply emits_since].
Qed.


(** C10: every file written by a run lies directly in a directory named
    "augmented"; outside such directories the files after the run are the
    files before it, with the same data; and nothing is removed. *)
Theorem writes_stay_inside_augmented fuel root quantity w :
  let w' := (augment fuel root quantity w).2 in
  Forall in_augmented (writes (since w w')) /\
  (forall p data, ~ in_augmented p ->
     fs w' !! p = Some (File data) <-> fs w !! p = Some (File data)) /\
  (forall p, is_Some (fs w !! p) -> is_Some (fs w' !! p)).
Proof.
  intros w'.
  pose proof (emits_since _ _ _ (augment_emits fuel root quantity w)) as Hs.
  pose proof (augment_frame fuel root quantity w) as Hf. fold w' in Hf.
  split; [|split].
  - eapply Forall_writes; [|exact Hs].
    intros p (d & f & name & _ & _ & _ & ->). apply in_augmented_join.
  - intros p data Hp. specialize (Hf p).
    destruct Hf as [->|[(Ha & _)|(Hn & Hd)]]; [reflexivity|contradiction|].
    rewrite Hn, Hd. split; discriminate.
  - intros p [n Hn]. specialize (Hf p). rewrite Hn in Hf.
    destruct Hf as [->|[(_ & _ & data & ->)|(? & _)]]; eauto; discriminate.
Qed.

End TraceClaims.

Lemma listing_joins_the_root_witness :
  let w := Stub.start (Stub.nested_tree (fun _ => 0)) in
  ["data"; "a"] <> ["data"] /\
  Listdir ["data"; "a"; "b"] ∉ since w (augment 5 ["data"] 5 w).2.
Proof.
  split; [discriminate|].
  exact (listing_joins_the_root 5 ["data"] 5
           (Stub.start (Stub.nested_tree (fun _ => 0))) ["data"; "a"] "b"
           ltac:(discriminate)).
Defined.

(** On the tree [data/a/b/x.jpg] the walk reaches [data/a] and finds its
    subdirectory [b], but the listing is made of [data/b]: the run raises
    FileNotFoundError, and [data/a/b] is never listed. *)
Lemma nested_category_is_not_listed :
  let w := Stub.start (Stub.nested_tree (fun _ => 0)) in
  let r := augment 5 ["data"] 5 w in
  r.1 = Raise FileNotFoundError /\
  trace r.2 = [Scandir ["data"]; Listdir ["data"; "a"];
               Scandir ["data"; "a"]; Listdir ["data"; "b"]].
Proof. vm_compute. split; reflexivity. Qed.







(** C4 (amended): for a name ending in .jpg or .png, the output name is the
    text before the first dot, then [-aug.], then the text between the first
    dot and the second (up to the end when there is no second dot); it is
    the specification's formula exactly when the name has a single dot. *)
Theorem output_name_keeps_two_pieces filename :
  eligible filename = true ->
  output_filename filename =
    inr (PyStr.text_before_first dot filename +:+ "-aug." +:+
         PyStr.text_before_first dot (PyStr.text_after_first dot filename)) /\
  (PyStr.contains dot (PyStr.text_after_first dot filename) = false ->
   output_filename filename = inr (spec_output_filename filename)).
Proof.
  intros He. split; [now apply output_filename_eligible|].
  intros Hone. rewrite (output_filename_eligible _ He).
  unfold spec_output_filename. now rewrite (text_before_first_no_sep _ _ Hone).
Qed.

Lemma output_name_keeps_two_pieces_witness :
  output_filename "cat.jpg" = inr "cat-aug.jpg" /\
  output_filename "cat.jpg" = inr (spec_output_filename "cat.jpg").
Proof.
  destruct (output_name_keeps_two_pieces "cat.jpg" eq_refl) as [H1 H2].
  split; [exact H1 | exact (H2 eq_refl)].
Defined.

(** The specification's formula, the whole text after the first dot, is not
    what the code computes for a name with two dots. *)
Lemma output_name_drops_later_pieces :
  exists filename,
    eligible filename = true /\
    output_filename filename <> inr (spec_output_filename filename).
Proof. exists "img.photo.png". split; [reflexivity | discriminate]. Qed.

(** C5: [cat.jpg] gives [cat-aug.jpg], and [img.photo.png] gives
    [img-aug.photo]. *)
Theorem output_names_of_the_examples :
  output_filename "cat.jpg" = inr "cat-aug.jpg" /\
  output_filename "img.photo.png" = inr "img-aug.photo".
Proof. split; reflexivity. Qed.

(** ** Further properties of the code *)

Section Pieces.

Lemma append_cons c (a b : string) : String c a +:+ b = String c (a +:+ b).
Proof. reflexivity. Qed.

Lemma split_no_sep sep s :
  PyStr.contains sep s = false -> PyStr.split sep s = [s].
Proof.
  induction s as [|c s IH]; simpl; [reflexivity|].
  destruct (Ascii.eqb c sep); [discriminate|]. intros Hc. now rewrite IH.
Qed.

Lemma split_app_sep sep a b :
  PyStr.contains sep a = false ->
  PyStr.split sep (a +:+ String sep b) = a :: PyStr.split sep b.
Proof.
  induction a as [|c a IH]; [intros _; simpl; now rewrite Ascii.eqb_refl|].
  rewrite append_cons. simpl.
  destruct (Ascii.eqb c sep); [discriminate|]. intros Hc. now rewrite IH.
Qed.

Lemma contains_app sep a b :
  PyStr.contains sep (a +:+ b) = PyStr.contains sep a || PyStr.contains sep b.
Proof.
  induction a as [|c a IH]; [reflexivity|].
  rewrite append_cons. simpl. now destruct (Ascii.eqb c sep).
Qed.

Lemma text_before_first_clean sep s :
  PyStr.contains sep (PyStr.text_before_first sep s) = false.
Proof.
  induction s as [|c s IH]; simpl; [reflexivity|].
  destruct (Ascii.eqb c sep) eqn:Hc; simpl; [reflexivity|]. now rewrite Hc.
Qed.

Lemma split_pieces_clean sep s :
  Forall (fun piece => PyStr.contains sep piece = false) (PyStr.split sep s).
Proof.
  induction s as [|c s IH]; simpl; [now repeat constructor|].
  destruct (Ascii.eqb c sep) eqn:Hc; [now constructor|].
  destruct (PyStr.split sep s) as [|piece pieces];
    [repeat constructor; simpl; now rewrite Hc|].
  inversion IH; subst. constructor; [|assumption]. simpl. now rewrite Hc.
Qed.

Lemma app_assoc_string (a b c : string) : (a +:+ b) +:+ c = a +:+ (b +:+ c).
Proof.
  induction a as [|x a IH]; [reflexivity|]. now rewrite !append_cons, IH.
Qed.

End Pieces.

(** X1: the name computation raises exactly when the name has no dot, and
    then it is IndexError, from [split(".")[1]]. *)
Theorem output_name_needs_a_dot filename :
  (output_filename filename = inl IndexError <->
   PyStr.contains dot filename = false) /\
  (forall e, output_filename filename = inl e -> e = IndexError).
Proof.
  unfold output_filename, PyStr.index. rewrite split_first.
  destruct (PyStr.contains dot filename) eqn:Hc.
  - rewrite (split_second _ _ Hc). split; [split; discriminate | discriminate].
  - rewrite (split_no_sep _ _ Hc). cbn. split; [easy | congruence].
Qed.

(** X2: an output name has exactly one dot: split at the dots it gives two
    pieces, the first piece of the source name followed by [-aug], and the
    second piece of the source name. *)
Theorem output_name_has_two_pieces filename name :
  output_filename filename = inr name ->
  exists stem ext,
    PyStr.split dot filename !! 0 = Some stem /\
    PyStr.split dot filename !! 1 = Some ext /\
    PyStr.split dot name = [stem +:+ "-aug"; ext].
Proof.
  unfold output_filename, PyStr.index.
  destruct (PyStr.split dot filename !! 0) as [stem|] eqn:H0; [|discriminate].
  destruct (PyStr.split dot filename !! 1) as [ext|] eqn:H1; [|discriminate].
  intros [= <-]. exists stem, ext. split; [reflexivity|]. split; [reflexivity|].
  pose proof (split_pieces_clean dot filename) as Hclean.
  rewrite Forall_lookup in Hclean.
  pose proof (Hclean _ _ H0) as Hs. pose proof (Hclean _ _ H1) as He.
  change (stem +:+ "-aug." +:+ ext)
    with (stem +:+ ("-aug" +:+ String dot ext)).
  rewrite <- app_assoc_string, split_app_sep, (split_no_sep _ _ He);
    [reflexivity|].
  rewrite contains_app, Hs. reflexivity.
Qed.

Lemma output_name_has_two_pieces_witness :
  exists stem ext,
    PyStr.split dot "img.photo.png" !! 0 = Some stem /\
    PyStr.split dot "img.photo.png" !! 1 = Some ext /\
    PyStr.split dot "img-aug.photo" = [stem +:+ "-aug"; ext].
Proof.
  exact (output_name_has_two_pieces "img.photo.png" "img-aug.photo" eq_refl).
Defined.

(** X3: a root folder that is missing, or is a regular file, is not an
    error: the walk tries to scan it, finds nothing to visit, and the run
    returns with the filesystem untouched. *)
Theorem root_that_is_no_directory_is_skipped `{Collaborators}
    fuel root quantity w :
  fs w !! root <> Some Dir ->
  augment (S fuel) root quantity w =
    (Return tt, World _ (fs w) (trace w ++ [Scandir root]) (cursor w)).
Proof.
  intros Hroot. unfold augment. cbn [os_walk].
  unfold bind, emit, get_fs, scandir. cbn [fs].
  destruct (fs w !! root) as [[data|]|]; [reflexivity | done | reflexivity].
Qed.

Lemma root_that_is_no_directory_is_skipped_witness :
  let w := Stub.start (Stub.cats_tree (fun _ => 0)) in
  augment 3 ["data"; "cats"; "a.jpg"] 40 w =
    (Return tt,
     World _ (fs w) (trace w ++ [Scandir ["data"; "cats"; "a.jpg"]]) (cursor w)).
Proof.
  exact (root_that_is_no_directory_is_skipped 2 ["data"; "cats"; "a.jpg"] 40
           (Stub.start (Stub.cats_tree (fun _ => 0)))
           ltac:(vm_compute; discriminate)).
Defined.

(** X4: a negative [quantity] makes the first listing of a category folder
    raise ValueError from the sampling (the count min(quantity, len(files))
    is negative), before any file is touched. *)
Theorem negative_quantity_raises_ValueError `{Collaborators}
    root quantity dirname w :
  (quantity < 0)%Z ->
  dirname <> "augmented" ->
  fs w !! Path.join root dirname = Some Dir ->
  augment_dirname root quantity dirname w =
    (Raise ValueError,
     World _ (fs w) (trace w ++ [Listdir (Path.join root dirname)]) (cursor w)).
Proof.
  intros Hq Hd Hdir. unfold augment_dirname.
  destruct (String.eqb_spec dirname "augmented") as [|_]; [done|].
  cbn [negb]. unfold bind at 1. rewrite os_listdir_run, Hdir.
  unfold bind, np_random_choice.
  destruct (Z.ltb_spec (Z.min quantity (Z.of_nat (length (entries (fs w)
    (Path.join root dirname))))) 0) as [_|Hge]; [reflexivity | lia].
Qed.

Lemma negative_quantity_raises_ValueError_witness :
  let w := Stub.start (Stub.cats_tree (fun _ => 0)) in
  augment_dirname ["data"] (-1) "cats" w =
    (Raise ValueError,
     World _ (fs w) (trace w ++ [Listdir ["data"; "cats"]]) (cursor w)).
Proof.
  exact (negative_quantity_raises_ValueError ["data"] (-1) "cats"
           (Stub.start (Stub.cats_tree (fun _ => 0)))
           ltac:(reflexivity) ltac:(discriminate)
           ltac:(vm_compute; reflexivity)).
Defined.

(** X5: for a non-negative [quantity] the sampling cannot fail, whatever the
    folder holds (also nothing): the count min(quantity, len(files)) is
    within range, and the sample has that many entries, all of them entries
    of the listing, none repeated when the listing has no repeats. *)
Theorem sampling_takes_the_smaller_count `{Collaborators}
    (files : list string) quantity w :
  (0 <= quantity)%Z ->
  let size := Z.to_nat (Z.min quantity (Z.of_nat (length files))) in
  exists sampled,
    np_random_choice files (Z.min quantity (Z.of_nat (length files))) w =
      (Return sampled, World _ (fs w) (trace w) (cursor w + size)) /\
    length sampled = size /\ sampled ⊆ files /\
    (NoDup files -> NoDup sampled) /\
    (length files <= size -> sampled ≡ₚ files).
Proof.
  intros Hq size. unfold np_random_choice.
  destruct (Z.ltb_spec (Z.min quantity (Z.of_nat (length files))) 0);
    [lia|].
  destruct (Z.ltb_spec (Z.of_nat (length files))
              (Z.min quantity (Z.of_nat (length files)))); [lia|].
  eexists. split; [reflexivity|]. fold size.
  split; [rewrite sample_length; lia|]. split; [apply sample_subseteq|].
  split; [apply sample_NoDup | apply sample_all].
Qed.

Lemma sampling_takes_the_smaller_count_witness :
  let w := Stub.start (Stub.cats_tree (fun _ => 0)) in
  let files := ["a.jpg"; "b.png"; "c.txt"] in
  exists sampled,
    np_random_choice files (Z.min 2 (Z.of_nat (length files))) w =
      (Return sampled, World _ (fs w) (trace w) (cursor w + 2)) /\
    length sampled = 2 /\ sampled ⊆ files /\
    (NoDup files -> NoDup sampled) /\
    (length files <= 2 -> sampled ≡ₚ files).
Proof.
  exact (sampling_takes_the_smaller_count ["a.jpg"; "b.png"; "c.txt"] 2
           (Stub.start (Stub.cats_tree (fun _ => 0))) ltac:(lia)).
Defined.

(** X6: a listing that runs to its end has read at most [quantity] images
    and written at most [quantity] outputs. *)
Theorem at_most_quantity_images_per_listing `{Collaborators}
    root quantity dirname w :
  dirname <> "augmented" ->
  (augment_dirname root quantity dirname w).1 = Return tt ->
  let w' := (augment_dirname root quantity dirname w).2 in
  (Z.of_nat (length (reads (since w w'))) <= quantity)%Z /\
  (Z.of_nat (length (writes (since w w'))) <= quantity)%Z.
Proof.
  intros Hd Hret w'.
  destruct (augment_dirname root quantity dirname w) as [r w1] eqn:Hrun.
  cbn in Hret, w'. subst r w'.
  apply augment_dirname_returns in Hrun as (Hq & names & Hr & Hn & Hw);
    [|exact Hd].
  rewrite Hr, Hw, !length_fmap, <- (Forall2_length _ _ _ Hn).
  set (files := entries _ _) in *.
  pose proof (length_filter (fun f => eligible f = true)
    (sample_without_replacement random_draws (cursor w) files
       (Z.to_nat (Z.min quantity (Z.of_nat (length files)))))) as Hle.
  rewrite sample_length in Hle. unfold images. lia.
Qed.

Lemma at_most_quantity_images_per_listing_witness :
  let w := Stub.start (Stub.cats_tree (fun _ => 0)) in
  let w' := (augment_dirname ["data"] 1 "cats" w).2 in
  (Z.of_nat (length (reads (since w w'))) <= 1)%Z /\
  (Z.of_nat (length (writes (since w w'))) <= 1)%Z.
Proof.
  exact (at_most_quantity_images_per_listing ["data"] 1 "cats"
           (Stub.start (Stub.cats_tree (fun _ => 0)))
           ltac:(discriminate) ltac:(vm_compute; reflexivity)).
Defined.

(** X8: a listing that succeeds gives the names of the direct children of
    the folder, each name once, and changes nothing but the trace. *)
Theorem listing_gives_the_direct_children `{Collaborators} p w names w' :
  os_listdir p w = (Return names, w') ->
  fs w !! p = Some Dir /\
  NoDup names /\
  (forall name, name ∈ names <-> is_Some (fs w !! Path.join p name)) /\
  w' = World _ (fs w) (trace w ++ [Listdir p]) (cursor w).
Proof.
  rewrite os_listdir_run.
  destruct (fs w !! p) as [[data|]|]; [discriminate| |discriminate].
  intros [= <- <-]. split; [reflexivity|]. split; [apply entries_NoDup|].
  split; [apply elem_of_entries | reflexivity].
Qed.

Lemma listing_gives_the_direct_children_witness :
  let w := Stub.start (Stub.cats_tree (fun _ => 0)) in
  fs w !! ["data"; "cats"] = Some Dir /\
  NoDup ["a.jpg"; "b.png"] /\
  (forall name, name ∈ ["a.jpg"; "b.png"] <->
     is_Some (fs w !! Path.join ["data"; "cats"] name)) /\
  World _ (fs w) (trace w ++ [Listdir ["data"; "cats"]]) (cursor w) =
    World _ (fs w) (trace w ++ [Listdir ["data"; "cats"]]) (cursor w).
Proof.
  exact (listing_gives_the_direct_children ["data"; "cats"]
           (Stub.start (Stub.cats_tree (fun _ => 0))) ["a.jpg"; "b.png"] _
           ltac:(vm_compute; reflexivity)).
Defined.

Section Termination.
Context `{Collaborators}.

Lemma depth_lookup f p : is_Some (f !! p) -> length p <= depth f.
Proof.
  intros [n Hn]. apply elem_of_map_to_list in Hn. unfold depth.
  induction (map_to_list f) as [|kv l IH]; [now apply elem_of_nil in Hn|].
  apply elem_of_cons in Hn as [<-|Hn]; cbn; [lia|]. specialize (IH Hn). lia.
Qed.

Lemma keeps_bounded_pure {A} N (m : M A) :
  (forall w, fs (m w).2 = fs w) -> keeps (bounded N) m.
Proof. intros Hm w p. rewrite Hm. now left. Qed.

Lemma os_mkdir_bounded N p : length p <= N -> keeps (bounded N) (os_mkdir p).
Proof.
  intros Hp w q. unfold os_mkdir, bind, get_fs, put_fs, raise.
  destruct (fs w !! p) as [n|] eqn:Ep; [now left|].
  destruct p as [|c p']; [now left|].
  destruct (fs w !! Path.parent (c :: p')) as [[data|]|]; try now left.
  cbn [snd fs]. destruct (decide (q = c :: p')) as [->|Hq]; [now right|].
  rewrite lookup_insert_ne by done. now left.
Qed.

Lemma makedirs_rev_bounded N rname :
  length rname <= N -> keeps (bounded N) (makedirs_rev rname).
Proof.
  induction rname as [|tail rhead IH]; intros Hlen; cbn [makedirs_rev];
    [now apply os_mkdir_bounded|].
  cbn [length] in Hlen.
  apply keeps_bind; [apply _ | | intros _].
  - apply keeps_bind; [apply _ | now apply keeps_bounded_pure |].
    intros head_exists. destruct rhead; [now apply keeps_ret; apply _|].
    destruct head_exists; [now apply keeps_ret; apply _|].
    apply keeps_pass; [apply _ | apply IH; lia].
  - apply os_mkdir_bounded. rewrite length_rev. cbn [length]. lia.
Qed.

Lemma cv2_imwrite_bounded N p img :
  length p <= N -> keeps (bounded N) (cv2_imwrite p img).
Proof.
  intros Hp w q. unfold cv2_imwrite, bind, emit, get_fs, put_fs, raise, ret.
  cbv beta iota. destruct (cv2_imencode p img) as [data|]; [|now left].
  cbn [fs]. destruct (_ && _); [|now left]. cbn [snd fs].
  destruct (decide (q = p)) as [->|Hq]; [now right|].
  rewrite lookup_insert_ne by done. now left.
Qed.

Lemma augment_file_bounded N nested filename :
  length nested + 2 <= N -> keeps (bounded N) (augment_file nested filename).
Proof.
  intros Hlen. unfold augment_file.
  destruct (eligible filename); [|now apply keeps_ret; apply _].
  apply keeps_bind; [apply _ | |].
  { apply keeps_bounded_pure. intros w.
    now destruct (cv2_imread_trace (Path.join nested filename) w) as [img ->]. }
  intros img. apply keeps_bind; [apply _ | | intros _].
  - apply keeps_bind; [apply _ | now apply keeps_bounded_pure |].
    intros []; simpl; [now apply keeps_ret; apply _|].
    unfold os_makedirs.
    apply keeps_bind; [apply _ | now apply keeps_bounded_pure | intros _].
    apply makedirs_rev_bounded. unfold Path.join.
    rewrite length_rev, length_app. cbn. lia.
  - apply keeps_bind; [apply _ | apply keeps_lift; apply _ |].
    intros name. apply keeps_bind; [apply _ | |].
    { apply keeps_bounded_pure. intros w. unfold transform, bind, emit. cbn.
      now destruct (augmentation_transforms _ _) as [[|] ?]. }
    intros augmented_img.
    apply keeps_bind; [apply _ | | intros _; now apply keeps_ret; apply _].
    apply cv2_imwrite_bounded. unfold Path.join. rewrite !length_app. cbn. lia.
Qed.

Lemma augment_dirname_bounded N root quantity dirname :
  length root + 3 <= N ->
  keeps (bounded N) (augment_dirname root quantity dirname).
Proof.
  intros Hlen. unfold augment_dirname.
  destruct (negb _); [|now apply keeps_ret; apply _].
  apply keeps_bind; [apply _ | |].
  { apply keeps_bounded_pure. intros w. now rewrite os_listdir_run. }
  intros files. apply keeps_bind; [apply _ | |].
  { apply keeps_bounded_pure. intros w. apply np_random_choice_silent. }
  intros sampled. apply keeps_for; [apply _|].
  intros f _. apply augment_file_bounded. unfold Path.join.
  rewrite length_app. cbn. lia.
Qed.

Lemma finishes_bind {A B} (m : M A) (k : A -> M B) :
  finishes m -> (forall a, finishes (k a)) -> finishes (bind m k).
Proof.
  intros Hm Hk w. unfold bind. specialize (Hm w).
  destruct (m w) as [[a|e|] w1]; cbn in *; [apply Hk | discriminate | done].
Qed.

Lemma finishes_for {A} (l : list A) body :
  (forall x, finishes (body x)) -> finishes (for_ l body).
Proof.
  intros Hb. induction l as [|x l IH]; cbn [for_]; [discriminate|].
  apply finishes_bind; auto.
Qed.

Lemma os_mkdir_finishes p : finishes (os_mkdir p).
Proof.
  intros w. unfold os_mkdir, bind, get_fs, put_fs, raise.
  destruct (fs w !! p); [discriminate|]. destruct p; [discriminate|].
  now destruct (fs w !! Path.parent _) as [[data|]|].
Qed.

Lemma makedirs_rev_finishes rname : finishes (makedirs_rev rname).
Proof.
  induction rname as [|tail rhead IH]; cbn [makedirs_rev];
    [apply os_mkdir_finishes|].
  apply finishes_bind; [|intros _; apply os_mkdir_finishes].
  apply finishes_bind; [discriminate|].
  intros head_exists. destruct rhead; [discriminate|].
  destruct head_exists; [discriminate|].
  intros w. unfold pass_FileExistsError. specialize (IH w).
  now destruct (makedirs_rev (s :: rhead) w) as [[[]|[]|] w1].
Qed.

Lemma augment_file_finishes nested filename :
  finishes (augment_file nested filename).
Proof.
  unfold augment_file. destruct (eligible filename); [|discriminate].
  apply finishes_bind.
  { intros w. now destruct (cv2_imread_trace (Path.join nested filename) w)
      as [img ->]. }
  intros img. apply finishes_bind.
  - apply finishes_bind; [discriminate|].
    intros []; simpl; [discriminate|]. unfold os_makedirs.
    apply finishes_bind; [discriminate | intros _; apply makedirs_rev_finishes].
  - intros _. apply finishes_bind; [now destruct (output_filename filename)|].
    intros name. apply finishes_bind.
    + intros w. unfold transform, bind, emit. cbv beta iota.
      now destruct (augmentation_transforms _ _) as [[|] ?].
    + intros augmented_img. apply finishes_bind; [|discriminate].
      intros w. unfold cv2_imwrite, bind, emit, get_fs, put_fs, raise, ret.
      cbv beta iota. destruct (cv2_imencode _ _); [|discriminate].
      now destruct (_ && _).
Qed.

Lemma augment_dirname_finishes root quantity dirname :
  finishes (augment_dirname root quantity dirname).
Proof.
  unfold augment_dirname. destruct (negb _); [|discriminate].
  apply finishes_bind.
  { intros w. rewrite os_listdir_run. now destruct (fs w !! _) as [[|]|]. }
  intros files. apply finishes_bind.
  { intros w. unfold np_random_choice.
    destruct (_ <? 0)%Z; [discriminate|]. now destruct (_ <? _)%Z. }
  intros sampled. apply finishes_for. intros f. apply augment_file_finishes.
Qed.

Lemma bounded_depth N w w' :
  depth (fs w) <= N -> bounded N w w' ->
  forall p, is_Some (fs w' !! p) -> length p <= N.
Proof.
  intros Hd Hb p Hp. destruct (Hb p Hp) as [Hp0|]; [|done].
  apply depth_lookup in Hp0. lia.
Qed.

Lemma walk_finishes N body :
  (forall top dirs nondirs, finishes (body top dirs nondirs)) ->
  (forall top dirs nondirs, keeps (bounded N) (body top dirs nondirs)) ->
  forall fuel top w,
    (forall p, is_Some (fs w !! p) -> length p <= N) ->
    0 < fuel -> N < fuel + length top ->
    (os_walk fuel body top w).1 <> OutOfFuel.
Proof.
  intros Hfin Hkeep.
  assert (Hwalk : forall fuel top, keeps (bounded N) (os_walk fuel body top)).
  { intros fuel top. apply keeps_walk with (good := fun _ => True);
      [apply _ | apply Hkeep | | easy | easy].
    intros top' _. now apply keeps_bounded_pure. }
  assert (Hinv : forall w w' : world,
    (forall p, is_Some (fs w !! p) -> length p <= N) -> bounded N w w' ->
    forall p, is_Some (fs w' !! p) -> length p <= N).
  { intros w w' Hw Hb p Hp. destruct (Hb p Hp) as [Hp0|]; auto. }
  induction fuel as [|fuel IH]; intros top w Hw Hpos Hfuel; [lia|].
  cbn [os_walk]. unfold bind at 1, emit. cbv beta iota.
  unfold bind at 1, get_fs. cbv beta iota. cbn [fs].
  set (w0 := World _ (fs w) (trace w ++ [Scandir top]) (cursor w)).
  destruct (scandir (fs w) top) as [[dirs nondirs]|] eqn:Hscan;
    [|discriminate].
  assert (Hdirs : Forall (fun d => length (Path.join top d) <= N) dirs).
  { unfold scandir in Hscan. destruct (fs w !! top) as [[data|]|];
      try discriminate.
    injection Hscan as <- _. apply Forall_forall. intros d Hd.
    apply list_elem_of_filter in Hd as [Hd _]. apply Hw.
    unfold is_dir in Hd. destruct (fs w !! Path.join top d); [eauto|done]. }
  unfold bind. pose proof (Hkeep top dirs nondirs w0) as Hb.
  pose proof (Hfin top dirs nondirs w0) as Hf.
  destruct (body top dirs nondirs w0) as [[[]|e|] w1]; cbn in Hb, Hf;
    [|discriminate|done].
  assert (Hw1 : forall p, is_Some (fs w1 !! p) -> length p <= N).
  { apply (Hinv w0); [exact Hw | exact Hb]. }
  clear Hscan Hb Hf. revert w1 Hw1.
  induction Hdirs as [|d dirs Hd _ IHd]; intros w1 Hw1; [discriminate|].
  cbn [for_]. unfold bind.
  assert (Hlen : length (Path.join top d) = S (length top)).
  { unfold Path.join. rewrite length_app. cbn. lia. }
  pose proof (IH (Path.join top d) w1 Hw1 ltac:(lia) ltac:(lia)) as Hrec.
  pose proof (Hwalk fuel (Path.join top d) w1) as Hb.
  destruct (os_walk fuel body (Path.join top d) w1) as [[[]|e|] w2];
    cbn in Hrec, Hb; [|discriminate|done].
  apply IHd. apply (Hinv w1); [exact Hw1 | exact Hb].
Qed.

Lemma augment_finishes N fuel root quantity w :
  depth (fs w) <= N -> length root + 3 <= N -> N < fuel + length root ->
  (augment fuel root quantity w).1 <> OutOfFuel.
Proof.
  intros Hd Hroot Hfuel. unfold augment. apply walk_finishes with (N := N).
  - intros top dirs nondirs. apply finishes_for. intros d.
    apply augment_dirname_finishes.
  - intros top dirs nondirs. apply keeps_for; [apply _|].
    intros d _. now apply augment_dirname_bounded.
  - intros p Hp. apply depth_lookup in Hp. lia.
  - lia.
  - exact Hfuel.
Qed.

End Termination.

(** X9: the walk ends.  With more fuel than the tree is deep (counting the
    three levels a run can add below its root), a run returns or raises: it
    does not run out of fuel, so the fuel is no limit of the model. *)
Theorem enough_fuel_finishes_the_run `{Collaborators} fuel root quantity w :
  max (depth (fs w)) (length root + 3) < fuel + length root ->
  (augment fuel root quantity w).1 <> OutOfFuel.
Proof.
  intros Hfuel.
  apply augment_finishes with (N := max (depth (fs w)) (length root + 3));
    lia.
Qed.

Lemma enough_fuel_finishes_the_run_witness :
  let w := Stub.start (Stub.cats_tree (fun _ => 0)) in
  max (depth (fs w)) (length ["data"] + 3) < 4 + length ["data"] /\
  (augment 4 ["data"] 40 w).1 <> OutOfFuel.
Proof.
  assert (Hfuel : max (depth (fs (Stub.start (Stub.cats_tree (fun _ => 0)))))
                    (length ["data"] + 3) < 4 + length ["data"])
    by (vm_compute; lia).
  split; [exact Hfuel|].
  exact (enough_fuel_finishes_the_run 4 ["data"] 40
           (Stub.start (Stub.cats_tree (fun _ => 0))) Hfuel).
Defined.

Section OneImage.
Context `{Collaborators}.

Lemma os_mkdir_run p w :
  p <> [] -> fs w !! p = None -> fs w !! Path.parent p = Some Dir ->
  os_mkdir p w =
    (Return tt, World _ (<[p := Dir]> (fs w)) (trace w) (cursor w)).
Proof.
  intros Hp Hnone Hparent. unfold os_mkdir, bind, get_fs, put_fs.
  rewrite Hnone. destruct p as [|c p']; [done|]. now rewrite Hparent.
Qed.

Lemma makedirs_rev_run tail rhead w :
  fs w !! rev rhead = Some Dir ->
  fs w !! rev (tail :: rhead) = None ->
  makedirs_rev (tail :: rhead) w =
    (Return tt,
     World _ (<[rev (tail :: rhead) := Dir]> (fs w)) (trace w) (cursor w)).
Proof.
  intros Hdir Hnone. cbn [makedirs_rev].
  unfold os_path_exists, get_fs, ret, bind. cbv beta iota.
  rewrite bool_decide_eq_true_2 by eauto.
  assert (Hmk : os_mkdir (rev (tail :: rhead)) w =
    (Return tt,
     World _ (<[rev (tail :: rhead) := Dir]> (fs w)) (trace w) (cursor w))).
  { apply os_mkdir_run; [|exact Hnone|].
    - cbn [rev]. now destruct (rev rhead).
    - cbn [rev]. unfold Path.parent. now rewrite removelast_last. }
  destruct rhead; exact Hmk.
Qed.

(** Making [nested/augmented] inside an existing directory [nested]. *)
Lemma os_makedirs_run nested w :
  fs w !! nested = Some Dir ->
  fs w !! Path.join nested "augmented" = None ->
  os_makedirs (Path.join nested "augmented") w =
    (Return tt,
     World _ (<[Path.join nested "augmented" := Dir]> (fs w))
       (trace w ++ [Makedirs (Path.join nested "augmented")]) (cursor w)).
Proof.
  intros Hdir Hnone. unfold os_makedirs, bind at 1, emit. cbv beta iota.
  change (rev (Path.join nested "augmented"))
    with (rev (nested ++ ["augmented"])).
  rewrite rev_unit, makedirs_rev_run; cbn [fs rev];
    rewrite rev_involutive; done.
Qed.

Lemma os_path_exists_run p w :
  os_path_exists p w = (Return (bool_decide (is_Some (fs w !! p))), w).
Proof. reflexivity. Qed.

Lemma cv2_imread_run p w :
  cv2_imread p w =
    (Return (match fs w !! p with
             | Some (File data) => cv2_imdecode data
             | _ => None
             end),
     World _ (fs w) (trace w ++ [Imread p]) (cursor w)).
Proof.
  unfold cv2_imread, bind, emit, get_fs, ret. cbv beta iota. cbn [fs].
  now destruct (fs w !! p) as [[data|]|].
Qed.

Lemma transform_run img w :
  transform img w =
    (match (augmentation_transforms (cursor w) img).1 with
     | inl e => Raise e
     | inr out => Return out
     end,
     World _ (fs w) (trace w ++ [Transform])
       (augmentation_transforms (cursor w) img).2).
Proof.
  unfold transform, bind, emit. cbv beta iota. cbn [fs trace cursor].
  now destruct (augmentation_transforms (cursor w) img) as [[e|out] c].
Qed.

Lemma cv2_imwrite_run p img w :
  cv2_imwrite p img w =
    match cv2_imencode p img with
    | None => (Raise Cv2Error,
               World _ (fs w) (trace w ++ [Imwrite p]) (cursor w))
    | Some data =>
        if is_dir (fs w) (Path.parent p) && negb (is_dir (fs w) p)
        then (Return true,
              World _ (<[p := File data]> (fs w)) (trace w ++ [Imwrite p])
                (cursor w))
        else (Return false,
              World _ (fs w) (trace w ++ [Imwrite p]) (cursor w))
    end.
Proof.
  unfold cv2_imwrite, bind, emit, get_fs, put_fs, raise, ret. cbv beta iota.
  destruct (cv2_imencode p img) as [data|]; [|reflexivity].
  cbn [fs trace cursor]. now destruct (_ && _).
Qed.

(** The check for the output directory, and its making when it is missing,
    inside an existing directory [nested]. *)
Lemma ensure_output_dir_run nested w :
  let output_dir := Path.join nested "augmented" in
  fs w !! nested = Some Dir ->
  fs w !! output_dir = None \/ fs w !! output_dir = Some Dir ->
  (let* there := os_path_exists output_dir in
   if negb there then os_makedirs output_dir else ret tt) w =
    (Return tt,
     World _ (<[output_dir := Dir]> (fs w))
       (trace w ++ (if bool_decide (is_Some (fs w !! output_dir)) then []
                    else [Makedirs output_dir]))
       (cursor w)).
Proof.
  intros output_dir Hnested Hout.
  unfold os_path_exists, get_fs, ret, bind. cbv beta iota.
  destruct Hout as [Hnone|Hdir].
  - rewrite bool_decide_eq_false_2 by (rewrite Hnone; apply is_Some_None).
    cbn [negb]. apply (os_makedirs_run nested w Hnested Hnone).
  - rewrite bool_decide_eq_true_2 by eauto. cbn [negb].
    rewrite insert_id, app_nil_r by exact Hdir. now destruct w.
Qed.

(** What one sampled image gives when every step succeeds. *)
Lemma augment_file_run nested filename name src out c data w :
  let output_dir := Path.join nested "augmented" in
  let output_path := Path.join output_dir name in
  eligible filename = true ->
  output_filename filename = inr name ->
  fs w !! nested = Some Dir ->
  fs w !! Path.join nested filename = Some (File src) ->
  fs w !! output_dir = None \/ fs w !! output_dir = Some Dir ->
  fs w !! output_path <> Some Dir ->
  augmentation_transforms (cursor w) (cv2_imdecode src) = (inr out, c) ->
  cv2_imencode output_path out = Some data ->
  augment_file nested filename w =
    (Return tt,
     World _ (<[output_path := File data]> (<[output_dir := Dir]> (fs w)))
       (trace w ++ Imread (Path.join nested filename) ::
          (if bool_decide (is_Some (fs w !! output_dir)) then []
           else [Makedirs output_dir]) ++
          [Transform; Imwrite output_path])
       c).
Proof.
  intros output_dir output_path He Hname Hnested Hsrc Hout Hfree Haug Henc.
  unfold augment_file. rewrite He, Hname. cbn [lift].
  unfold bind at 1. rewrite cv2_imread_run, Hsrc.
  unfold bind at 1. fold output_dir.
  rewrite (ensure_output_dir_run nested) by (cbn [fs]; assumption).
  cbn [fs trace cursor]. rewrite bind_ret_l. fold output_path.
  unfold bind at 1. rewrite transform_run. cbn [fs trace cursor].
  rewrite Haug. cbn [fst snd].
  unfold bind at 1. rewrite cv2_imwrite_run, Henc. cbn [fs trace cursor].
  assert (Hne : output_path <> output_dir).
  { unfold output_path, Path.join. intros Heq.
    apply (f_equal length) in Heq. rewrite !length_app in Heq. cbn in Heq. lia. }
  unfold is_dir, output_path at 1. rewrite parent_join.
  rewrite lookup_insert_eq. fold output_path.
  rewrite lookup_insert_ne by (intros Heq; now apply Hne).
  destruct (fs w !! output_path) as [[old|]|]; [| done |];
    cbn; rewrite <- !app_assoc; reflexivity.
Qed.

End OneImage.

(** X10: what one sampled image gives when every step succeeds, inside an
    existing category folder whose output directory is missing or is a
    directory: the source is decoded, the pipeline is run on the image, the
    output directory is made when it was missing, and the encoded result is
    stored under the output name; the calls are the read, the making of the
    directory when it was missing, the transform and the write. *)
Theorem one_image_is_read_transformed_and_written `{Collaborators}
    nested filename name src out c data w :
  let output_dir := Path.join nested "augmented" in
  let output_path := Path.join output_dir name in
  eligible filename = true ->
  output_filename filename = inr name ->
  fs w !! nested = Some Dir ->
  fs w !! Path.join nested filename = Some (File src) ->
  fs w !! output_dir = None \/ fs w !! output_dir = Some Dir ->
  fs w !! output_path <> Some Dir ->
  augmentation_transforms (cursor w) (cv2_imdecode src) = (inr out, c) ->
  cv2_imencode output_path out = Some data ->
  augment_file nested filename w =
    (Return tt,
     World _ (<[output_path := File data]> (<[output_dir := Dir]> (fs w)))
       (trace w ++ Imread (Path.join nested filename) ::
          (if bool_decide (is_Some (fs w !! output_dir)) then []
           else [Makedirs output_dir]) ++
          [Transform; Imwrite output_path])
       c).
Proof. apply augment_file_run. Qed.

Lemma one_image_is_read_transformed_and_written_witness :
  let w := Stub.start (Stub.cats_tree (fun _ => 0)) in
  augment_file ["data"; "cats"] "a.jpg" w =
    (Return tt,
     World _
       (<[["data"; "cats"; "augmented"; "a-aug.jpg"] :=
            @File (Stub.collaborators (fun _ => 0)) "aug:pixels"]>
          (<[["data"; "cats"; "augmented"] := Dir]> (fs w)))
       [Imread ["data"; "cats"; "a.jpg"];
        Makedirs ["data"; "cats"; "augmented"];
        Transform;
        Imwrite ["data"; "cats"; "augmented"; "a-aug.jpg"]]
       0).
Proof.
  exact (one_image_is_read_transformed_and_written
           (H := Stub.collaborators (fun _ => 0)) ["data"; "cats"] "a.jpg" "a-aug.jpg" "pixels" "aug:pixels" 0
           "aug:pixels" (Stub.start (Stub.cats_tree (fun _ => 0)))
           ltac:(reflexivity) ltac:(reflexivity)
           ltac:(vm_compute; reflexivity) ltac:(vm_compute; reflexivity)
           ltac:(left; vm_compute; reflexivity)
           ltac:(vm_compute; discriminate)
           ltac:(reflexivity) ltac:(reflexivity)).
Defined.

(** X11: when the name [augmented] in a category folder is taken by a
    regular file, an image of that folder is read and transformed, the
    write finds no directory to write into and returns False, and the code
    goes on: the run reports no failure and the output is lost. *)
Theorem blocked_output_directory_loses_the_output `{Collaborators}
    nested filename name blocker out c data w :
  let output_dir := Path.join nested "augmented" in
  let output_path := Path.join output_dir name in
  let img := match fs w !! Path.join nested filename with
             | Some (File src) => cv2_imdecode src
             | _ => None
             end in
  eligible filename = true ->
  output_filename filename = inr name ->
  fs w !! output_dir = Some (File blocker) ->
  augmentation_transforms (cursor w) img = (inr out, c) ->
  cv2_imencode output_path out = Some data ->
  augment_file nested filename w =
    (Return tt,
     World _ (fs w)
       (trace w ++ [Imread (Path.join nested filename); Transform;
                    Imwrite output_path])
       c).
Proof.
  intros output_dir output_path img He Hname Hblock Haug Henc.
  unfold augment_file. rewrite He, Hname. cbn [lift].
  unfold bind at 1. rewrite cv2_imread_run. fold img.
  unfold bind at 1. fold output_dir.
  unfold bind at 1. rewrite os_path_exists_run. cbn [fs].
  rewrite bool_decide_eq_true_2 by eauto. cbn [negb]. unfold ret at 1.
  rewrite bind_ret_l. fold output_path.
  unfold bind at 1. rewrite transform_run. cbn [fs trace cursor].
  rewrite Haug. cbn [fst snd].
  unfold bind at 1. rewrite cv2_imwrite_run, Henc. cbn [fs trace cursor].
  unfold is_dir at 1, output_path at 1. rewrite parent_join. fold output_dir.
  rewrite Hblock. cbn. now rewrite <- !app_assoc.
Qed.

Lemma blocked_output_directory_loses_the_output_witness :
  let w := Stub.start (Stub.blocked_tree (fun _ => 0)) in
  augment_file ["data"; "cats"] "a.jpg" w =
    (Return tt,
     World _ (fs w)
       [Imread ["data"; "cats"; "a.jpg"]; Transform;
        Imwrite ["data"; "cats"; "augmented"; "a-aug.jpg"]]
       0).
Proof.
  exact (blocked_output_directory_loses_the_output
           (H := Stub.collaborators (fun _ => 0)) ["data"; "cats"] "a.jpg" "a-aug.jpg" "not a directory"
           "aug:pixels" 0 "aug:pixels"
           (Stub.start (Stub.blocked_tree (fun _ => 0)))
           ltac:(reflexivity) ltac:(reflexivity)
           ltac:(vm_compute; reflexivity)
           ltac:(vm_compute; reflexivity) ltac:(reflexivity)).
Defined.

Section Changes.
Context `{Collaborators}.

Lemma changes_pure root (w w' : world) : fs w' = fs w -> changes_below root w w'.
Proof. intros Hfs p. left. now rewrite Hfs. Qed.

Lemma changes_keep_dir root (w w' : world) p :
  changes_below root w w' -> fs w !! p = Some Dir -> fs w' !! p = Some Dir.
Proof.
  intros Hc Hp. specialize (Hc p). rewrite Hp in Hc.
  destruct Hc as [->|[(? & _ & _ & ? & _)|(? & ? & _ & _ & ? & _)]];
    [reflexivity | discriminate | done].
Qed.

(** The check and the making of the output directory in an existing
    category folder: it returns, having made at most that directory. *)
Lemma ensure_output_dir_returns nested w :
  let output_dir := Path.join nested "augmented" in
  fs w !! nested = Some Dir ->
  exists f' mk,
    (let* there := os_path_exists output_dir in
     if negb there then os_makedirs output_dir else ret tt) w =
      (Return tt, World _ f' (trace w ++ mk) (cursor w)) /\
    (f' = fs w \/ fs w !! output_dir = None /\ f' = <[output_dir := Dir]> (fs w)).
Proof.
  intros output_dir Hnested. subst output_dir.
  unfold bind. rewrite os_path_exists_run.
  destruct (fs w !! Path.join nested "augmented") as [n|] eqn:Hout.
  - rewrite bool_decide_eq_true_2 by eauto. cbn [negb].
    exists (fs w), []. split; [|now left].
    unfold ret. rewrite app_nil_r. now destruct w.
  - rewrite bool_decide_eq_false_2 by apply is_Some_None. cbn [negb].
    rewrite (os_makedirs_run nested w Hnested Hout). eauto 6.
Qed.

Lemma cv2_imwrite_changes root d name img :
  d <> "augmented" ->
  keeps (changes_below root)
    (cv2_imwrite (Path.join (Path.join (Path.join root d) "augmented") name) img).
Proof.
  intros Hd w q. rewrite cv2_imwrite_run.
  set (p := Path.join _ name).
  destruct (cv2_imencode p img) as [data|]; [|now left].
  destruct (is_dir (fs w) (Path.parent p)); [|now left].
  unfold is_dir. destruct (fs w !! p) as [[old|]|] eqn:Ep; cbn; try now left.
  - destruct (decide (q = p)) as [->|Hq].
    + right; right. exists d, name. rewrite lookup_insert_eq, Ep. eauto 6.
    + left. now rewrite lookup_insert_ne.
  - destruct (decide (q = p)) as [->|Hq].
    + right; right. exists d, name. rewrite lookup_insert_eq, Ep. eauto 6.
    + left. now rewrite lookup_insert_ne.
Qed.

Lemma augment_file_changes root d filename w :
  d <> "augmented" ->
  fs w !! Path.join root d = Some Dir ->
  changes_below root w (augment_file (Path.join root d) filename w).2.
Proof.
  intros Hd Hnested. unfold augment_file.
  destruct (eligible filename); [|reflexivity].
  unfold bind at 1. rewrite cv2_imread_run.
  set (w1 := World _ (fs w) _ (cursor w)). unfold bind at 1.
  destruct (ensure_output_dir_returns (Path.join root d) w1 Hnested)
    as (f' & mk & -> & Hf').
  transitivity (World _ f' (trace w1 ++ mk) (cursor w1)).
  - intros p. cbn [fs]. destruct Hf' as [->|[Hnone ->]]; [now left|].
    destruct (decide (p = Path.join (Path.join root d) "augmented"))
      as [->|Hp].
    + right; left. exists d. now rewrite lookup_insert_eq.
    + left. now rewrite lookup_insert_ne.
  - match goal with |- changes_below _ ?w2 (?k ?w2).2 =>
      enough (Hk : keeps (changes_below root) k) by apply Hk end.
    apply keeps_bind; [apply _ | apply keeps_lift; apply _ |].
    intros name. apply keeps_bind; [apply _ | |].
    { intros w2. apply changes_pure. now rewrite transform_run. }
    intros augmented_img.
    apply keeps_bind; [apply _ | | intros _; now apply keeps_ret; apply _].
    now apply cv2_imwrite_changes.
Qed.

Lemma for_augment_file_changes root d (l : list string) w :
  d <> "augmented" ->
  fs w !! Path.join root d = Some Dir ->
  changes_below root w (for_ l (augment_file (Path.join root d)) w).2.
Proof.
  intros Hd. revert w. induction l as [|f l IH]; intros w Hnested;
    cbn [for_]; [reflexivity|].
  unfold bind.
  pose proof (augment_file_changes root d f w Hd Hnested) as Hf.
  destruct (augment_file (Path.join root d) f w) as [[[]|e|] w1];
    cbn [snd] in *; try exact Hf.
  transitivity w1; [exact Hf|]. apply IH.
  eapply changes_keep_dir; eauto.
Qed.

Lemma augment_dirname_changes root quantity dirname :
  keeps (changes_below root) (augment_dirname root quantity dirname).
Proof.
  intros w. unfold augment_dirname.
  destruct (String.eqb_spec dirname "augmented") as [|Hd]; [reflexivity|].
  cbn [negb]. unfold bind at 1. rewrite os_listdir_run.
  destruct (fs w !! Path.join root dirname) as [[data|]|] eqn:Hdir;
    try (now apply changes_pure).
  unfold bind at 1.
  pose proof (np_random_choice_silent (entries (fs w) (Path.join root dirname))
    (Z.min quantity (Z.of_nat (length (entries (fs w)
       (Path.join root dirname)))))
    (World _ (fs w) (trace w ++ [Listdir (Path.join root dirname)])
       (cursor w))) as [_ Hfs].
  destruct (np_random_choice _ _ _) as [[sampled|e|] w1]; cbn [snd fs] in *;
    try (now apply changes_pure).
  transitivity w1; [now apply changes_pure|].
  apply for_augment_file_changes; [exact Hd | now rewrite Hfs].
Qed.

Lemma augment_changes fuel root quantity :
  keeps (changes_below root) (augment fuel root quantity).
Proof.
  unfold augment. apply keeps_walk with (good := fun _ => True); try easy.
  - apply _.
  - intros top dirs nondirs. apply keeps_for; [apply _|].
    intros d _. apply augment_dirname_changes.
  - intros top _ w. now apply changes_pure.
Qed.

End Changes.

(** X12: the only changes a run makes to the tree are below its root: a
    directory [root/d/augmented] appears where there was nothing, and a
    file [root/d/augmented/name] is written where there was no directory,
    for names [d] other than "augmented"; every other path keeps its node. *)
Theorem a_run_only_adds_augmented_outputs `{Collaborators}
    fuel root quantity w p :
  let o := fs w !! p in
  let o' := fs (augment fuel root quantity w).2 !! p in
  o' = o \/
  (exists d, d <> "augmented" /\
     p = Path.join (Path.join root d) "augmented" /\
     o = None /\ o' = Some Dir) \/
  (exists d name, d <> "augmented" /\
     p = Path.join (Path.join (Path.join root d) "augmented") name /\
     o <> Some Dir /\ exists data, o' = Some (File data)).
Proof. apply (augment_changes fuel root quantity w p). Qed.

(** X14: every call of a run is made on a path below its root. *)
Theorem a_run_stays_below_its_root `{Collaborators} fuel root quantity w p :
  let evs := since w (augment fuel root quantity w).2 in
  Scandir p ∈ evs \/ Listdir p ∈ evs \/ Imread p ∈ evs \/
    Makedirs p ∈ evs \/ Imwrite p ∈ evs ->
  exists rest, p = root ++ rest.
Proof.
  intros evs Hin.
  pose proof (emits_since _ _ _ (augment_emits fuel root quantity w)) as Hs.
  rewrite Forall_forall in Hs. fold evs in Hs. unfold Path.join in Hs.
  destruct Hin as [Hin|[Hin|[Hin|[Hin|Hin]]]]; apply Hs in Hin; cbn in Hin.
  - exact Hin.
  - destruct Hin as (d & _ & ->). eauto.
  - destruct Hin as (d & f & _ & _ & ->).
    unfold Path.join. eexists. rewrite <- ?app_assoc. reflexivity.
  - destruct Hin as (d & _ & ->).
    unfold Path.join. eexists. rewrite <- ?app_assoc. reflexivity.
  - destruct Hin as (d & f & name & _ & _ & _ & ->).
    unfold Path.join. eexists. rewrite <- ?app_assoc. reflexivity.
Qed.

Lemma a_run_stays_below_its_root_witness :
  let w := Stub.start (Stub.cats_tree (fun _ => 0)) in
  exists rest, ["data"; "cats"; "augmented"; "a-aug.jpg"] = ["data"] ++ rest.
Proof.
  exact (a_run_stays_below_its_root 5 ["data"] 5
           (Stub.start (Stub.cats_tree (fun _ => 0)))
           ["data"; "cats"; "augmented"; "a-aug.jpg"]
           ltac:(do 4 right; vm_compute; apply list_elem_of_In; simpl; tauto)).
Defined.

Section Pace.
Context `{Collaborators}.

Lemma transforms_app e1 e2 : transforms (e1 ++ e2) = transforms e1 + transforms e2.
Proof. unfold transforms. now rewrite omap_app, length_app. Qed.

Lemma paced_app e1 e2 : paced e1 -> paced e2 -> paced (e1 ++ e2).
Proof.
  unfold paced. rewrite reads_app, writes_app, transforms_app, !length_app. lia.
Qed.

#[export] Instance paced_run_preorder : PreOrder paced_run.
Proof.
  split.
  - intros w. exists []. rewrite app_nil_r. split; [reflexivity|].
    split; cbn; lia.
  - intros w1 w2 w3 (e1 & E1 & P1) (e2 & E2 & P2). exists (e1 ++ e2).
    split; [now rewrite E2, E1, app_assoc | now apply paced_app].
Qed.

Lemma paced_quiet {A} (m : M A) evs :
  (forall w, trace (m w).2 = trace w ++ evs) -> paced evs -> keeps paced_run m.
Proof. intros Hm Hp w. exists evs. split; [apply Hm | exact Hp]. Qed.

Lemma ensure_output_dir_trace output_dir w :
  exists mk,
    (mk = [] \/ mk = [Makedirs output_dir]) /\
    trace ((let* there := os_path_exists output_dir in
            if negb there then os_makedirs output_dir else ret tt) w).2 =
      trace w ++ mk.
Proof.
  unfold bind. rewrite os_path_exists_run.
  destruct (bool_decide (is_Some (fs w !! output_dir))); cbn [negb].
  - exists []. split; [now left | now rewrite app_nil_r].
  - exists [Makedirs output_dir]. split; [now right|].
    apply os_makedirs_trace.
Qed.

Lemma augment_file_paced nested filename :
  keeps paced_run (augment_file nested filename).
Proof.
  intros w. unfold augment_file.
  destruct (eligible filename); [|reflexivity].
  unfold bind at 1. rewrite cv2_imread_run.
  set (w1 := World _ (fs w) _ (cursor w)). unfold bind at 1.
  destruct (ensure_output_dir_trace (Path.join nested "augmented") w1)
    as (mk & Hmk & Ht2).
  destruct ((let* there := os_path_exists (Path.join nested "augmented") in
             if negb there then os_makedirs (Path.join nested "augmented")
             else ret tt) w1) as [[[]|e|] w2]; cbn [snd] in *.
  2,3: exists (Imread (Path.join nested filename) :: mk);
       (split; [rewrite Ht2; unfold w1; cbn [trace];
                now rewrite <- app_assoc|]);
       destruct Hmk as [-> | ->]; split; cbn; lia.
  destruct (output_filename filename) as [e|name]; cbn [lift].
  { exists (Imread (Path.join nested filename) :: mk).
    split; [cbn; rewrite Ht2; unfold w1; cbn [trace];
            now rewrite <- app_assoc|].
    destruct Hmk as [-> | ->]; split; cbn; lia. }
  rewrite bind_ret_l. unfold bind at 1. rewrite transform_run.
  destruct (augmentation_transforms _ _) as [[e1|out] c]; cbn [fst snd].
  { exists (Imread (Path.join nested filename) :: mk ++ [Transform]).
    split; [cbn [snd trace]; rewrite Ht2; unfold w1; cbn [trace];
            now rewrite <- !app_assoc|].
    destruct Hmk as [-> | ->]; split; cbn; lia. }
  unfold bind at 1.
  match goal with |- context [cv2_imwrite ?q out ?w3] =>
    pose proof (cv2_imwrite_trace q out w3) as Ht4;
    destruct (cv2_imwrite q out w3) as [[b|e|] w4];
    exists (Imread (Path.join nested filename) :: mk ++ [Transform; Imwrite q])
  end.
  all: unfold ret; cbn [snd trace] in *;
       (split; [rewrite Ht4, Ht2; unfold w1; cbn [trace];
                now rewrite <- !app_assoc|]);
       destruct Hmk as [-> | ->]; split; cbn; lia.
Qed.

Lemma augment_paced fuel root quantity :
  keeps paced_run (augment fuel root quantity).
Proof.
  assert (Hone : forall e, match e with Scandir _ | Listdir _ => True
                           | _ => False end -> paced [e]).
  { intros []; try easy; intros _; split; cbn; lia. }
  unfold augment. apply keeps_walk with (good := fun _ => True); try easy.
  - apply _.
  - intros top dirs nondirs. apply keeps_for; [apply _|].
    intros d _. unfold augment_dirname.
    destruct (negb _); [|now apply keeps_ret; apply _].
    apply keeps_bind; [apply _ | |].
    { apply paced_quiet with (evs := [Listdir (Path.join root d)]);
        [|now apply Hone].
      intros w. now rewrite os_listdir_run. }
    intros files. apply keeps_bind; [apply _ | |].
    { apply paced_quiet with (evs := []); [|split; cbn; lia].
      intros w. rewrite app_nil_r. apply np_random_choice_silent. }
    intros sampled. apply keeps_for; [apply _|].
    intros f _. apply augment_file_paced.
  - intros top _. apply paced_quiet with (evs := [Scandir top]);
      [reflexivity | now apply Hone].
Qed.

End Pace.

(** X15: however a run ends, it has written no more outputs than it has run
    the pipeline, and run the pipeline no more often than it has read
    images: each write follows a transform, each transform a read. *)
Theorem writes_follow_transforms_follow_reads `{Collaborators}
    fuel root quantity w :
  let evs := since w (augment fuel root quantity w).2 in
  length (writes evs) <= transforms evs /\
  transforms evs <= length (reads evs).
Proof.
  intros evs. destruct (augment_paced fuel root quantity w) as (evs' & Ht & Hp).
  unfold evs. now rewrite (since_grown _ _ _ Ht).
Qed.

Section Lazily.
Context `{Collaborators}.

Lemma makes_app e1 e2 : makes (e1 ++ e2) = makes e1 ++ makes e2.
Proof. apply omap_app. Qed.





End Lazily.


(** X17: the call the notebook makes.  Its listings are of the folders
    [../datasets/raw-animals-img/d], its outputs go to
    [../datasets/raw-animals-img/d/augmented/name], for names [d] other
    than "augmented"; and since its quantity, 40, is not negative, the
    sampling of a listing never fails and takes at most 40 entries. *)
Theorem notebook_call_samples_up_to_forty `{Collaborators} fuel w :
  let evs := since w (Notebook.run fuel w).2 in
  (forall p, Listdir p ∈ evs ->
     exists d, d <> "augmented" /\
       p = [".."; "datasets"; "raw-animals-img"; d]) /\
  (forall p, Imwrite p ∈ evs ->
     exists d name, d <> "augmented" /\
       p = [".."; "datasets"; "raw-animals-img"; d; "augmented"; name]) /\
  (forall (files : list string) w0,
     exists sampled w1,
       np_random_choice files
         (Z.min Notebook.quantity (Z.of_nat (length files))) w0 =
         (Return sampled, w1) /\
       length sampled <= 40).
Proof.
  intros evs.
  pose proof (emits_since _ _ _
    (augment_emits fuel Notebook.folder_path Notebook.quantity w)) as Hs.
  rewrite Forall_forall in Hs. fold (Notebook.run fuel) evs in Hs.
  split; [|split].
  - intros p Hin. apply Hs in Hin as (d & Hd & ->). eauto.
  - intros p Hin. apply Hs in Hin as (d & f & name & Hd & _ & _ & ->). eauto.
  - intros files w0. unfold np_random_choice, Notebook.quantity.
    destruct (Z.ltb_spec (Z.min 40 (Z.of_nat (length files))) 0); [lia|].
    destruct (Z.ltb_spec (Z.of_nat (length files))
                (Z.min 40 (Z.of_nat (length files)))); [lia|].
    eexists _, _. split; [reflexivity|]. rewrite sample_length. lia.
Qed.

(** X18: a transform that raises leaves the directory it was preceded by:
    when the output directory is missing, it is made before the pipeline is
    called, so an image on which the pipeline raises (a source that did not
    decode is handed to it as None all the same) ends the run with the new,
    empty [augmented] directory in place and nothing written. *)
Theorem failed_transform_leaves_the_new_directory `{Collaborators}
    nested filename e c w :
  let output_dir := Path.join nested "augmented" in
  let img := match fs w !! Path.join nested filename with
             | Some (File src) => cv2_imdecode src
             | _ => None
             end in
  eligible filename = true ->
  fs w !! nested = Some Dir ->
  fs w !! output_dir = None ->
  augmentation_transforms (cursor w) img = (inl e, c) ->
  augment_file nested filename w =
    (Raise e,
     World _ (<[output_dir := Dir]> (fs w))
       (trace w ++ [Imread (Path.join nested filename); Makedirs output_dir;
                    Transform])
       c).
Proof.
  intros output_dir img He Hnested Hnone Haug.
  unfold augment_file. rewrite He, (output_filename_eligible _ He).
  cbn [lift]. unfold bind at 1. rewrite cv2_imread_run. fold img.
  unfold bind at 1. fold output_dir.
  rewrite (ensure_output_dir_run nested) by (cbn [fs]; auto).
  cbn [fs trace cursor]. fold output_dir.
  rewrite bool_decide_eq_false_2 by (rewrite Hnone; apply is_Some_None).
  rewrite bind_ret_l. unfold bind at 1. rewrite transform_run.
  cbn [fs trace cursor]. rewrite Haug. cbn [fst snd].
  now rewrite <- !app_assoc.
Qed.

Lemma failed_transform_leaves_the_new_directory_witness :
  let w := Stub.start (Stub.undecodable_tree (fun _ => 0)) in
  augment_file ["data"; "cats"] "a.jpg" w =
    (Raise TransformError,
     World _ (<[["data"; "cats"; "augmented"] := Dir]> (fs w))
       [Imread ["data"; "cats"; "a.jpg"];
        Makedirs ["data"; "cats"; "augmented"]; Transform]
       0).
Proof.
  exact (failed_transform_leaves_the_new_directory
           (H := Stub.collaborators (fun _ => 0)) ["data"; "cats"] "a.jpg"
           TransformError 0 (Stub.start (Stub.undecodable_tree (fun _ => 0)))
           ltac:(reflexivity) ltac:(vm_compute; reflexivity)
           ltac:(vm_compute; reflexivity) ltac:(vm_compute; reflexivity)).
Defined.

Lemma endswith_suffix s suffix :
  PyStr.endswith s suffix = true <-> exists prefix, s = prefix +:+ suffix.
Proof.
  split.
  - induction s as [|c s IH]; cbn [PyStr.endswith].
    + destruct (String.eqb_spec "" suffix) as [<-|]; [|discriminate].
      intros _. now exists "".
    + destruct (String.eqb_spec (String c s) suffix) as [<-|_].
      * intros _. now exists "".
      * intros [prefix ->]%IH. now exists (String c prefix).
  - intros [prefix ->]. induction prefix as [|c prefix IH].
    + change ("" +:+ suffix) with suffix. destruct suffix; cbn [PyStr.endswith];
        now rewrite String.eqb_refl.
    + rewrite append_cons. cbn [PyStr.endswith]. rewrite IH.
      now destruct (String.eqb _ _).
Qed.

(** X19: the filter of the loop is a plain test of the last four
    characters, case and all: a name passes exactly when it is some text
    followed by [.jpg] or by [.png]. *)
Theorem eligible_names_end_in_jpg_or_png filename :
  eligible filename = true <->
  exists stem, filename = stem +:+ ".jpg" \/ filename = stem +:+ ".png".
Proof.
  unfold eligible. rewrite Bool.orb_true_iff, !endswith_suffix.
  split.
  - intros [[stem ->]|[stem ->]]; eauto.
  - intros [stem [->| ->]]; eauto.
Qed.

(** X7: an output no encoder takes ends the iteration in cv2.imwrite's
    exception, after everything before the write was done: the image was
    read, the output directory made when it was missing, the pipeline run;
    nothing is stored, and the directory that was made stays. *)
Theorem unencodable_output_raises_at_the_write `{Collaborators}
    nested filename name out c w :
  let output_dir := Path.join nested "augmented" in
  let output_path := Path.join output_dir name in
  let img := match fs w !! Path.join nested filename with
             | Some (File src) => cv2_imdecode src
             | _ => None
             end in
  eligible filename = true ->
  output_filename filename = inr name ->
  fs w !! nested = Some Dir ->
  fs w !! output_dir = None \/ fs w !! output_dir = Some Dir ->
  augmentation_transforms (cursor w) img = (inr out, c) ->
  cv2_imencode output_path out = None ->
  augment_file nested filename w =
    (Raise Cv2Error,
     World _ (<[output_dir := Dir]> (fs w))
       (trace w ++ Imread (Path.join nested filename) ::
          (if bool_decide (is_Some (fs w !! output_dir)) then []
           else [Makedirs output_dir]) ++
          [Transform; Imwrite output_path])
       c).
Proof.
  intros output_dir output_path img He Hname Hnested Hout Haug Henc.
  unfold augment_file. rewrite He, Hname. cbn [lift].
  unfold bind at 1. rewrite cv2_imread_run. fold img.
  unfold bind at 1. fold output_dir.
  rewrite (ensure_output_dir_run nested) by (cbn [fs]; assumption).
  cbn [fs trace cursor]. rewrite bind_ret_l. fold output_dir output_path.
  unfold bind at 1. rewrite transform_run. cbn [fs trace cursor].
  rewrite Haug. cbn [fst snd].
  unfold bind at 1. rewrite cv2_imwrite_run, Henc. cbn [fs trace cursor].
  now rewrite <- !app_assoc.
Qed.

Lemma unencodable_output_raises_at_the_write_witness :
  let w := Stub.start (Stub.photo_tree (fun _ => 1)) in
  augment_file ["data"; "cats"] "img.photo.png" w =
    (Raise Cv2Error,
     World _ (<[["data"; "cats"; "augmented"] := Dir]> (fs w))
       [Imread ["data"; "cats"; "img.photo.png"];
        Makedirs ["data"; "cats"; "augmented"]; Transform;
        Imwrite ["data"; "cats"; "augmented"; "img-aug.photo"]]
       0).
Proof.
  exact (unencodable_output_raises_at_the_write
           (H := Stub.collaborators (fun _ => 1)) ["data"; "cats"]
           "img.photo.png" "img-aug.photo" "aug:pixels" 0
           (Stub.start (Stub.photo_tree (fun _ => 1)))
           ltac:(reflexivity) ltac:(reflexivity)
           ltac:(vm_compute; reflexivity)
           ltac:(left; vm_compute; reflexivity)
           ltac:(vm_compute; reflexivity) ltac:(reflexivity)).
Defined.

Section InPlace.
Context `{Collaborators}.

Lemma can_be_made_earlier root (w w' : world) p :
  changes_below root w w' ->
  can_be_made root (fs w') p -> can_be_made root (fs w) p.
Proof.
  intros Hc (d & Hd & -> & Hdir & Hnone). exists d.
  split; [exact Hd|]. split; [reflexivity|]. split.
  - specialize (Hc (Path.join root d)). rewrite Hdir in Hc.
    destruct Hc as [Heq|[(d' & _ & Hp & _)|(d' & name & _ & _ & _ & data & Hf)]];
      [now rewrite Heq | | discriminate].
    exfalso. apply (f_equal length) in Hp. unfold Path.join in Hp.
    rewrite !length_app in Hp. cbn in Hp. lia.
  - specialize (Hc (Path.join (Path.join root d) "augmented")).
    rewrite Hnone in Hc.
    destruct Hc as [Heq|[(? & _ & _ & _ & ?)|(? & ? & _ & _ & _ & ? & ?)]];
      [now rewrite Heq | discriminate | discriminate].
Qed.

#[export] Instance makes_in_place_preorder root : PreOrder (makes_in_place root).
Proof.
  split.
  - intros w. split; [reflexivity|]. exists []. rewrite app_nil_r.
    split; [reflexivity | constructor].
  - intros w1 w2 w3 [C1 (e1 & E1 & F1)] [C2 (e2 & E2 & F2)].
    split; [etransitivity; eauto|]. exists (e1 ++ e2).
    split; [now rewrite E2, E1, app_assoc|].
    rewrite makes_app. apply Forall_app. split; [exact F1|].
    eapply Forall_impl; [exact F2|]. intros p. now apply can_be_made_earlier.
Qed.




End InPlace.



(** ** Calls that fail *)

Section Ends.
Context `{Collaborators}.
Context (J : world -> Prop) (B : event -> exception -> Prop).







End Ends.

Section EndsAugment.
Context `{Collaborators}.
Context (f0 : gmap path node).







End EndsAugment.



